(** * ReactPhysics3D: the persistent contact cache

    A shallow embedding of [src/engine/PersistentContactCache.cpp] and of the
    inline part of [src/constraint/Contact.h], with the properties of the
    contact manifold stated over it.

    - The C++ [double] is kept abstract (class [Scalar]): the cache only
      subtracts, multiplies and compares scalars, so every statement about
      its control flow holds for any arithmetic, IEEE binary64 included
      (instance [float_Scalar]).  Statements that need the order to be total
      or the arithmetic to be exact assume it ([OrderedScalar],
      [ExactScalar]); exact integers are an instance ([Z_Scalar]).
    - [Contact] objects live in the memory pool and the cache holds pointers
      to them: the pool is a finite map from pointers to objects, and every
      access through a pointer that is not allocated, every failed [assert]
      and every access outside the array makes the operation fail.
    - The life of a cache, from its constructor through any sequence of
      [addContact], [update] and [clear] to its destructor, is a list of
      operations run on a fresh cache ([performAll], [freshState]). *)

From Stdlib Require Import ZArith Lia Bool List Ring PrimFloat.
From stdpp Require Import base option list gmap.

Local Open Scope Z_scope.

(** ** Scalars *)

(** The operations on [double] that the sources use: the literal [0.0],
    [-], [*] (and [+] inside the vector operations), [<] and [<=];
    [a > b] is read as [b < a]. *)
Class Scalar : Type := {
  double : Type;
  d0 : double;
  d1 : double;
  dadd : double → double → double;
  dsub : double → double → double;
  dmul : double → double → double;
  dltb : double → double → bool;
  dleb : double → double → bool;
}.

(** Comparisons form a total order (no NaN). *)
Class OrderedScalar (S : Scalar) : Prop := {
  dleb_trans : ∀ a b c : double, dleb a b = true → dleb b c = true → dleb a c = true;
  dltb_dleb : ∀ a b : double, dltb a b = negb (dleb b a);
  dleb_total : ∀ a b : double, dleb a b = true ∨ dleb b a = true;
}.

(** Arithmetic is exact: a commutative ring. *)
Class ExactScalar (S : Scalar) : Prop := {
  d_ring : ring_theory d0 d1 dadd dmul dsub (λ a, dsub d0 a) (@eq double);
}.

#[export] Instance Z_Scalar : Scalar := {|
  double := Z; d0 := 0; d1 := 1;
  dadd := Z.add; dsub := Z.sub; dmul := Z.mul;
  dltb := Z.ltb; dleb := Z.leb |}.

#[export] Instance float_Scalar : Scalar := {|
  double := float; d0 := 0%float; d1 := 1%float;
  dadd := PrimFloat.add; dsub := PrimFloat.sub; dmul := PrimFloat.mul;
  dltb := PrimFloat.ltb; dleb := PrimFloat.leb |}.

(** ** Vectors and transforms *)

Section Mathematics.
Context {S : Scalar}.

(** Modelled from the spec: the class [Vector3] (mathematics/Vector3.h is not
    among the sources): a triple of doubles with the usual componentwise
    difference, sum, product by a scalar, dot and cross product and squared
    length (spec, section 3). *)
Record Vector3 : Type := mkVector3 { vx : double; vy : double; vz : double }.

Definition Vadd (a b : Vector3) : Vector3 :=
  mkVector3 (dadd (vx a) (vx b)) (dadd (vy a) (vy b)) (dadd (vz a) (vz b)).

Definition Vsub (a b : Vector3) : Vector3 :=
  mkVector3 (dsub (vx a) (vx b)) (dsub (vy a) (vy b)) (dsub (vz a) (vz b)).

Definition Vscale (a : Vector3) (k : double) : Vector3 :=
  mkVector3 (dmul (vx a) k) (dmul (vy a) k) (dmul (vz a) k).

Definition dot (a b : Vector3) : double :=
  dadd (dadd (dmul (vx a) (vx b)) (dmul (vy a) (vy b))) (dmul (vz a) (vz b)).

Definition cross (a b : Vector3) : Vector3 :=
  mkVector3 (dsub (dmul (vy a) (vz b)) (dmul (vz a) (vy b)))
            (dsub (dmul (vz a) (vx b)) (dmul (vx a) (vz b)))
            (dsub (dmul (vx a) (vy b)) (dmul (vy a) (vx b))).

Definition lengthSquare (a : Vector3) : double :=
  dadd (dadd (dmul (vx a) (vx a)) (dmul (vy a) (vy a))) (dmul (vz a) (vz a)).

Definition Vzero : Vector3 := mkVector3 d0 d0 d0.

(** Modelled from the spec: the class [Transform]
    (mathematics/Transform.h is not among the sources): a rotation, here the
    three rows of its matrix, and a translation; applied to a point [p] it
    yields [R p + t] (spec, section 3). *)
Record Transform : Type := mkTransform {
  orientation : Vector3 * Vector3 * Vector3;
  position : Vector3;
}.

(** [T * p] *)
Definition Transform_apply (T : Transform) (p : Vector3) : Vector3 :=
  let '(r0, r1, r2) := orientation T in
  Vadd (mkVector3 (dot r0 p) (dot r1 p) (dot r2 p)) (position T).

(** What the sources take from headers that are not among them
    (constants.h, mathematics.h): the drift threshold, the approximate
    equality of two points and [Vector3::getOneOrthogonalVector]. *)
Class Externals : Type := {
  PERSISTENT_CONTACT_DIST_THRESHOLD : double;
  isApproxEqual : Vector3 → Vector3 → bool;
  getOneOrthogonalVector : Vector3 → Vector3;
}.

End Mathematics.

Arguments Vector3 : clear implicits.
Arguments Transform : clear implicits.
Arguments Externals : clear implicits.

(** Modelled from the spec: [MAX_CONTACTS_IN_CACHE] (constants.h is not among
    the sources) is 4 (spec, section 6). *)
Definition MAX_CONTACTS_IN_CACHE : Z := 4.

(** ** Contact (constraint/Contact.h) *)

Section Contact.
Context {S : Scalar} {E : Externals S}.

(** The members of [Contact]; those it inherits from [Constraint] (the two
    bodies, the number of constraint rows) play no part in the cache and are
    left out. *)
Record Contact : Type := mkContact {
  normal : Vector3 S;
  penetrationDepth : double;
  localPointOnBody1 : Vector3 S;
  localPointOnBody2 : Vector3 S;
  worldPointOnBody1 : Vector3 S;
  worldPointOnBody2 : Vector3 S;
  frictionVectors : list (Vector3 S);
  mu_mc_g : double;
}.

Definition getNormal (c : Contact) : Vector3 S := normal c.
Definition getLocalPointOnBody1 (c : Contact) : Vector3 S := localPointOnBody1 c.
Definition getLocalPointOnBody2 (c : Contact) : Vector3 S := localPointOnBody2 c.
Definition getWorldPointOnBody1 (c : Contact) : Vector3 S := worldPointOnBody1 c.
Definition getWorldPointOnBody2 (c : Contact) : Vector3 S := worldPointOnBody2 c.
Definition getPenetrationDepth (c : Contact) : double := penetrationDepth c.

Definition setPenetrationDepth (d : double) (c : Contact) : Contact :=
  mkContact (normal c) d (localPointOnBody1 c) (localPointOnBody2 c)
            (worldPointOnBody1 c) (worldPointOnBody2 c) (frictionVectors c) (mu_mc_g c).

Definition setWorldPointOnBody1 (worldPoint : Vector3 S) (c : Contact) : Contact :=
  mkContact (normal c) (penetrationDepth c) (localPointOnBody1 c) (localPointOnBody2 c)
            worldPoint (worldPointOnBody2 c) (frictionVectors c) (mu_mc_g c).

Definition setWorldPointOnBody2 (worldPoint : Vector3 S) (c : Contact) : Contact :=
  mkContact (normal c) (penetrationDepth c) (localPointOnBody1 c) (localPointOnBody2 c)
            (worldPointOnBody1 c) worldPoint (frictionVectors c) (mu_mc_g c).

(** [frictionVectors.clear()] followed by the two [push_back]. *)
Definition computeFrictionVectors (c : Contact) : Contact :=
  let cleared : list (Vector3 S) := [] in
  let vector1 := getOneOrthogonalVector (normal c) in
  let pushed1 := cleared ++ [vector1] in
  let pushed2 := pushed1 ++ [cross (normal c) vector1] in
  mkContact (normal c) (penetrationDepth c) (localPointOnBody1 c) (localPointOnBody2 c)
            (worldPointOnBody1 c) (worldPointOnBody2 c) pushed2 (mu_mc_g c).

(** Modelled from the spec: [ContactInfo] (collision/ContactInfo.h is not
    among the sources), the narrow phase's snapshot: normal, depth and the
    two local anchors (spec, section 3); the two body handles play no part
    here. *)
Record ContactInfo : Type := mkContactInfo {
  info_normal : Vector3 S;
  info_penetrationDepth : double;
  info_localPoint1 : Vector3 S;
  info_localPoint2 : Vector3 S;
}.

(** Modelled from the spec: the constructor [Contact::Contact] (Contact.cpp is
    not among the sources) copies normal, depth and local anchors of the
    [ContactInfo] and computes the friction basis; the world anchors are not
    set before the first [update] (spec, section 4.2), here the zero vector.
    [mu] stands for the friction bound the constructor derives from the
    bodies. *)
Definition Contact_new (contactInfo : ContactInfo) (mu : double) : Contact :=
  computeFrictionVectors
    (mkContact (info_normal contactInfo) (info_penetrationDepth contactInfo)
               (info_localPoint1 contactInfo) (info_localPoint2 contactInfo)
               Vzero Vzero [] mu).

End Contact.

Arguments Contact : clear implicits.
Arguments ContactInfo : clear implicits.

(** ** The memory pool and the cache object *)

(** Pointers to [Contact] blocks of the pool, and the handles of bodies, are
    positive numbers. *)

Section State.
Context {S : Scalar}.

(** Modelled from the spec: [MemoryPool<Contact>] (memory/MemoryPool.h is not
    among the sources), the allocator interface of the spec (section 4.7):
    the blocks in use with the object each holds, and the log of the blocks
    given back through [freeObject], the latest first. *)
Record MemoryPool : Type := mkMemoryPool {
  blocks : gmap positive (Contact S);
  freed : list positive;
}.

(** The members of [PersistentContactCache]; a slot of the array
    [contacts] that was never written holds no pointer. *)
Record PersistentContactCache : Type := mkCache {
  body1 : positive;
  body2 : positive;
  contacts : list (option positive);
  nbContacts : Z;
}.

(** The cache and the pool it refers to. *)
Record State : Type := mkState {
  memoryPoolContacts : MemoryPool;
  cache : PersistentContactCache;
}.

(** Computations on the state that may fail (undefined behaviour or a
    failed [assert]). *)
Definition M (A : Type) : Type := State → option (A * State).

Definition ret {A : Type} (a : A) : M A := λ st, Some (a, st).

Definition bind {A B : Type} (m : M A) (k : A → M B) : M B :=
  λ st, match m st with
        | Some (a, st') => k a st'
        | None => None
        end.

Definition fail {A : Type} : M A := λ _, None.

End State.

Arguments MemoryPool : clear implicits.
Arguments State : clear implicits.

Notation "x ←' m ;; k" := (bind m (λ x, k))
  (at level 100, m at next level, k at level 200, right associativity,
   format "'[v' x  ←'  m  ;;  '/' k ']'").
Notation "m ;;' k" := (bind m (λ _, k))
  (at level 100, k at level 200, right associativity,
   format "'[v' m  ;;'  '/' k ']'").

Section Primitives.
Context {S : Scalar}.

Definition assert (b : bool) : M unit :=
  if b then ret tt else fail.

(** Read the member [nbContacts]. *)
Definition getNbContacts : M Z :=
  λ st, Some (nbContacts (cache st), st).

(** Write the member [nbContacts]. *)
Definition setNbContacts (n : Z) : M unit :=
  λ st, let c := cache st in
        Some (tt, mkState (memoryPoolContacts st)
                          (mkCache (body1 c) (body2 c) (contacts c) n)).

(** Read [contacts[i]]: the index must be inside the array and the slot
    must hold a pointer. *)
Definition getSlot (i : Z) : M positive :=
  λ st, if 0 <=? i then
          match contacts (cache st) !! Z.to_nat i with
          | Some (Some p) => Some (p, st)
          | _ => None
          end
        else None.

(** Write [contacts[i] = p]: the index must be inside the array. *)
Definition setSlot (i : Z) (p : positive) : M unit :=
  λ st, let c := cache st in
        if (0 <=? i) && (i <? Z.of_nat (length (contacts c))) then
          Some (tt, mkState (memoryPoolContacts st)
                            (mkCache (body1 c) (body2 c)
                                     (<[Z.to_nat i := Some p]> (contacts c))
                                     (nbContacts c)))
        else None.

(** Read the object [*p]: the block must be in use. *)
Definition deref (p : positive) : M (Contact S) :=
  λ st, match blocks (memoryPoolContacts st) !! p with
        | Some c => Some (c, st)
        | None => None
        end.

(** Apply a setter to the object [*p]. *)
Definition modify (p : positive) (f : Contact S → Contact S) : M unit :=
  λ st, let pool := memoryPoolContacts st in
        match blocks pool !! p with
        | Some c => Some (tt, mkState (mkMemoryPool (<[p := f c]> (blocks pool)) (freed pool))
                                      (cache st))
        | None => None
        end.

(** [p->Contact::~Contact(); memoryPoolContacts.freeObject(p)]: the block
    must be in use; it goes back to the pool. *)
Definition freeObject (p : positive) : M unit :=
  λ st, let pool := memoryPoolContacts st in
        match blocks pool !! p with
        | Some _ => Some (tt, mkState (mkMemoryPool (delete p (blocks pool)) (p :: freed pool))
                                      (cache st))
        | None => None
        end.

(** Modelled from the spec: the allocator's [construct] (spec, section 4.7;
    MemoryPool.h is not among the sources): a block that is not in use
    receives the new object. *)
Definition newObject (c : Contact S) : M positive :=
  λ st, let pool := memoryPoolContacts st in
        let p := fresh (dom (blocks pool)) in
        Some (p, mkState (mkMemoryPool (<[p := c]> (blocks pool)) (freed pool))
                         (cache st)).

End Primitives.

(** ** PersistentContactCache (engine/PersistentContactCache.cpp) *)

Section Cache.
Context {S : Scalar} {E : Externals S}.

(** The constructor: [nbContacts(0)], the array is left as it is. *)
Definition PersistentContactCache_new (b1 b2 : positive) : PersistentContactCache :=
  mkCache b1 b2 (replicate (Z.to_nat MAX_CONTACTS_IN_CACHE) None) 0.

(** [contacts[i]->getLocalPointOnBody1()] *)
Definition localPointOf (i : Z) : M (Vector3 S) :=
  p ←' getSlot i ;;
  c ←' deref p ;;
  ret (getLocalPointOnBody1 c).

(** [contacts[i]->getPenetrationDepth()] *)
Definition penetrationDepthOf (i : Z) : M double :=
  p ←' getSlot i ;;
  c ←' deref p ;;
  ret (getPenetrationDepth c).

Definition removeContact (index : Z) : M unit :=
  nb ←' getNbContacts ;;
  assert ((0 <=? index) && (index <? nb)) ;;'
  assert (0 <? nb) ;;'
  p ←' getSlot index ;;
  freeObject p ;;'
  (if index <? nb - 1 then
     last ←' getSlot (nb - 1) ;;
     setSlot index last
   else ret tt) ;;'
  nb ←' getNbContacts ;;
  setNbContacts (nb - 1).

(** The loop of [getIndexOfDeepestPenetration]: [n] iterations are left,
    the next one at index [i]. *)
Fixpoint deepestLoop (n : nat) (i : Z) (maxPenetrationDepth : double)
    (indexMaxPenetrationDepth : Z) : M Z :=
  match n with
  | O => ret indexMaxPenetrationDepth
  | Datatypes.S n' =>
      d ←' penetrationDepthOf i ;;
      if dltb maxPenetrationDepth d
      then deepestLoop n' (i + 1) d i
      else deepestLoop n' (i + 1) maxPenetrationDepth indexMaxPenetrationDepth
  end.

Definition getIndexOfDeepestPenetration (newContact : positive) : M Z :=
  nb ←' getNbContacts ;;
  assert (nb =? MAX_CONTACTS_IN_CACHE) ;;'
  c ←' deref newContact ;;
  deepestLoop (Z.to_nat nb) 0 (getPenetrationDepth c) (-1).

Definition getMaxArea (area0 area1 area2 area3 : double) : Z :=
  if dltb area0 area1 then
    if dltb area1 area2 then
      if dltb area2 area3 then 3 else 2
    else
      if dltb area1 area3 then 3 else 1
  else
    if dltb area0 area2 then
      if dltb area2 area3 then 3 else 2
    else
      if dltb area0 area3 then 3 else 0.

Definition getIndexToRemove (indexMaxPenetration : Z) (newPoint : Vector3 S) : M Z :=
  nb ←' getNbContacts ;;
  assert (nb =? MAX_CONTACTS_IN_CACHE) ;;'
  let area0 := d0 in
  let area1 := d0 in
  let area2 := d0 in
  let area3 := d0 in
  area0 ←'
    (if negb (indexMaxPenetration =? 0) then
       p1 ←' localPointOf 1 ;;
       let vector1 := Vsub newPoint p1 in
       p3 ←' localPointOf 3 ;;
       p2 ←' localPointOf 2 ;;
       let vector2 := Vsub p3 p2 in
       let crossProduct := cross vector1 vector2 in
       ret (lengthSquare crossProduct)
     else ret area0) ;;
  area1 ←'
    (if negb (indexMaxPenetration =? 1) then
       p0 ←' localPointOf 0 ;;
       let vector1 := Vsub newPoint p0 in
       p3 ←' localPointOf 3 ;;
       p2 ←' localPointOf 2 ;;
       let vector2 := Vsub p3 p2 in
       let crossProduct := cross vector1 vector2 in
       ret (lengthSquare crossProduct)
     else ret area1) ;;
  area2 ←'
    (if negb (indexMaxPenetration =? 2) then
       p0 ←' localPointOf 0 ;;
       let vector1 := Vsub newPoint p0 in
       p3 ←' localPointOf 3 ;;
       p1 ←' localPointOf 1 ;;
       let vector2 := Vsub p3 p1 in
       let crossProduct := cross vector1 vector2 in
       ret (lengthSquare crossProduct)
     else ret area2) ;;
  area3 ←'
    (if negb (indexMaxPenetration =? 3) then
       p0 ←' localPointOf 0 ;;
       let vector1 := Vsub newPoint p0 in
       p2 ←' localPointOf 2 ;;
       p1 ←' localPointOf 1 ;;
       let vector2 := Vsub p2 p1 in
       let crossProduct := cross vector1 vector2 in
       ret (lengthSquare crossProduct)
     else ret area3) ;;
  ret (getMaxArea area0 area1 area2 area3).

(** The first loop of [addContact]: [true] when the new contact was found to
    repeat a cached one, and was deleted. *)
Fixpoint addContactScan (n : nat) (i : Z) (contact : positive) : M bool :=
  match n with
  | O => ret false
  | Datatypes.S n' =>
      c ←' deref contact ;;
      pi ←' localPointOf i ;;
      if isApproxEqual (getLocalPointOnBody1 c) pi then
        freeObject contact ;;'
        ret true
      else addContactScan n' (i + 1) contact
  end.

Definition addContact (contact : positive) : M unit :=
  nb ←' getNbContacts ;;
  let indexNewContact := nb in
  found ←' addContactScan (Z.to_nat nb) 0 contact ;;
  if found : bool then ret tt else
  indexNewContact ←'
    (if nb =? MAX_CONTACTS_IN_CACHE then
       indexMaxPenetration ←' getIndexOfDeepestPenetration contact ;;
       c ←' deref contact ;;
       indexToRemove ←' getIndexToRemove indexMaxPenetration (getLocalPointOnBody1 c) ;;
       removeContact indexToRemove ;;'
       ret indexToRemove
     else ret indexNewContact) ;;
  setSlot indexNewContact contact ;;'
  nb ←' getNbContacts ;;
  setNbContacts (nb + 1).

(** The first loop of [update]: [n] iterations are left, the next one at
    index [i]. *)
Fixpoint updateRefresh (transform1 transform2 : Transform S) (n : nat) (i : Z) : M unit :=
  match n with
  | O => ret tt
  | Datatypes.S n' =>
      p ←' getSlot i ;;
      modify p (λ c, setWorldPointOnBody1 (Transform_apply transform1 (getLocalPointOnBody1 c)) c) ;;'
      modify p (λ c, setWorldPointOnBody2 (Transform_apply transform2 (getLocalPointOnBody2 c)) c) ;;'
      modify p (λ c, setPenetrationDepth
                       (dot (Vsub (getWorldPointOnBody1 c) (getWorldPointOnBody2 c)) (getNormal c)) c) ;;'
      updateRefresh transform1 transform2 n' (i + 1)
  end.

(** The second loop of [update], from the last index down: the index of the
    next iteration is [n - 1]. *)
Fixpoint updateSweep (n : nat) : M unit :=
  match n with
  | O => ret tt
  | Datatypes.S n' =>
      let i := Z.of_nat n' in
      nb ←' getNbContacts ;;
      assert ((0 <=? i) && (i <? nb)) ;;'
      p ←' getSlot i ;;
      c ←' deref p ;;
      (if dleb (getPenetrationDepth c) d0 then removeContact i
       else
         let projOfPoint1 :=
           Vsub (getWorldPointOnBody1 c) (Vscale (getNormal c) (getPenetrationDepth c)) in
         let projDifference := Vsub (getWorldPointOnBody2 c) projOfPoint1 in
         if dltb (dmul PERSISTENT_CONTACT_DIST_THRESHOLD PERSISTENT_CONTACT_DIST_THRESHOLD)
                 (lengthSquare projDifference)
         then removeContact i
         else ret tt) ;;'
      updateSweep n'
  end.

Definition update (transform1 transform2 : Transform S) : M unit :=
  nb ←' getNbContacts ;;
  if nb =? 0 then ret tt else
  updateRefresh transform1 transform2 (Z.to_nat nb) 0 ;;'
  nb ←' getNbContacts ;;
  updateSweep (Z.to_nat nb).

(** The loop of [clear]. *)
Fixpoint clearLoop (n : nat) (i : Z) : M unit :=
  match n with
  | O => ret tt
  | Datatypes.S n' =>
      p ←' getSlot i ;;
      freeObject p ;;'
      clearLoop n' (i + 1)
  end.

Definition clear : M unit :=
  nb ←' getNbContacts ;;
  clearLoop (Z.to_nat nb) 0 ;;'
  setNbContacts 0.

(** The score passed to [getMaxArea] in position [i]. *)
Definition areaAt (area0 area1 area2 area3 : double) (i : Z) : double :=
  if i =? 0 then area0 else if i =? 1 then area1
  else if i =? 2 then area2 else area3.

End Cache.

(** ** Reading a state *)

Section Views.
Context {S : Scalar}.

(** Slot [i] is one of the live slots [0 .. nbContacts - 1] and holds the
    pointer [p]. *)
Definition liveAt (st : State S) (i : Z) (p : positive) : Prop :=
  0 ≤ i < nbContacts (cache st) ∧ contacts (cache st) !! Z.to_nat i = Some (Some p).

(** The block [p] is in use and holds the object [c]. *)
Definition objectAt (st : State S) (p : positive) (c : Contact S) : Prop :=
  blocks (memoryPoolContacts st) !! p = Some c.

(** Slot [i] is live and points to the object [c]. *)
Definition cachedAt (st : State S) (i : Z) (c : Contact S) : Prop :=
  ∃ p, liveAt st i p ∧ objectAt st p c.

(** The content of a live slot: a pointer to a block in use. *)
Definition allocated (st : State S) (slot : option positive) : Prop :=
  match slot with
  | Some p => is_Some (blocks (memoryPoolContacts st) !! p)
  | None => False
  end.

(** The live part of the array. *)
Definition liveSlots (st : State S) : list (option positive) :=
  take (Z.to_nat (nbContacts (cache st))) (contacts (cache st)).

(** The invariant of the cache (M1 and M2 of the spec): the array has its
    four slots, at most four are live, and the live slots point to distinct
    blocks in use. *)
Definition wellFormed (st : State S) : Prop :=
  0 ≤ nbContacts (cache st) ≤ MAX_CONTACTS_IN_CACHE
  ∧ length (contacts (cache st)) = Z.to_nat MAX_CONTACTS_IN_CACHE
  ∧ Forall (allocated st) (liveSlots st)
  ∧ NoDup (liveSlots st).

#[export] Instance allocated_dec (st : State S) (slot : option positive) :
  Decision (allocated st slot).
Proof. destruct slot; simpl; apply _. Defined.

#[export] Instance wellFormed_dec (st : State S) : Decision (wellFormed st).
Proof. unfold wellFormed. apply _. Defined.

(** The content of a slot does not point to a contact whose first local
    anchor is approximately [v]. *)
Definition differsFrom {E : Externals S} (st : State S) (v : Vector3 S)
    (slot : option positive) : Prop :=
  match slot with
  | Some p =>
      match blocks (memoryPoolContacts st) !! p with
      | Some c => isApproxEqual v (localPointOnBody1 c) = false
      | None => True
      end
  | None => True
  end.

#[export] Instance differsFrom_dec {E : Externals S} (st : State S) (v : Vector3 S)
  (slot : option positive) : Decision (differsFrom st v slot).
Proof. unfold differsFrom. destruct slot; [case_match|]; apply _. Defined.

End Views.

(** ** The effect of the operations, as functions of the state *)

Section Effects.
Context {S : Scalar} {E : Externals S}.

(** The score of one candidate of [getIndexToRemove]: zero for the protected
    index [k], else the squared length of the cross product. *)
Definition areaOr (k skip : Z) (newPoint pa pb pc : Vector3 S) : double :=
  if k =? skip then d0
  else lengthSquare (cross (Vsub newPoint pa) (Vsub pb pc)).

(** The index [getIndexToRemove] returns when the cached local points are
    [p0 .. p3]. *)
Definition indexToRemoveOf (k : Z) (newPoint p0 p1 p2 p3 : Vector3 S) : Z :=
  getMaxArea (areaOr k 0 newPoint p1 p3 p2) (areaOr k 1 newPoint p0 p3 p2)
             (areaOr k 2 newPoint p0 p3 p1) (areaOr k 3 newPoint p0 p2 p1).

(** The tie-break the spec describes for [getMaxArea]: no index above the
    returned one carries a score as high as the returned one's. *)
Definition prefersHigherIndex (area0 area1 area2 area3 : double) : Prop :=
  ∀ j, getMaxArea area0 area1 area2 area3 < j ≤ 3 →
    dleb (areaAt area0 area1 area2 area3 (getMaxArea area0 area1 area2 area3))
         (areaAt area0 area1 area2 area3 j) = false.

(** The score [getIndexToRemove] gives to candidate [j] when [r] is the
    protected index and the cached local points are [p0 .. p3]. *)
Definition candidateArea (r : Z) (newPoint p0 p1 p2 p3 : Vector3 S) (j : Z) : double :=
  areaAt (areaOr r 0 newPoint p1 p3 p2) (areaOr r 1 newPoint p0 p3 p2)
         (areaOr r 2 newPoint p0 p3 p1) (areaOr r 3 newPoint p0 p2 p1) j.

(** The state after [p->Contact::~Contact(); memoryPoolContacts.freeObject(p)]. *)
Definition released (st : State S) (p : positive) : State S :=
  mkState (mkMemoryPool (delete p (blocks (memoryPoolContacts st)))
                        (p :: freed (memoryPoolContacts st)))
          (cache st).

(** The state after [contacts[nbContacts] = p; nbContacts++]. *)
Definition appended (st : State S) (p : positive) : State S :=
  mkState (memoryPoolContacts st)
          (mkCache (body1 (cache st)) (body2 (cache st))
                   (<[Z.to_nat (nbContacts (cache st)) := Some p]> (contacts (cache st)))
                   (nbContacts (cache st) + 1)).

(** The state after the contact in slot [k], at [old], was deleted and
    [contacts[k] = p] written in its place. *)
Definition replaced (st : State S) (k : Z) (old p : positive) : State S :=
  mkState (mkMemoryPool (delete old (blocks (memoryPoolContacts st)))
                        (old :: freed (memoryPoolContacts st)))
          (mkCache (body1 (cache st)) (body2 (cache st))
                   (<[Z.to_nat k := Some p]> (contacts (cache st)))
                   (nbContacts (cache st))).

(** The state after the object at [p] was overwritten with [c]. *)
Definition stored (st : State S) (p : positive) (c : Contact S) : State S :=
  mkState (mkMemoryPool (<[p := c]> (blocks (memoryPoolContacts st)))
                        (freed (memoryPoolContacts st)))
          (cache st).

(** One iteration of the first loop of [update] on the object [c]. *)
Definition refreshed (transform1 transform2 : Transform S) (c : Contact S) : Contact S :=
  let c1 := setWorldPointOnBody1 (Transform_apply transform1 (getLocalPointOnBody1 c)) c in
  let c2 := setWorldPointOnBody2 (Transform_apply transform2 (getLocalPointOnBody2 c1)) c1 in
  setPenetrationDepth
    (dot (Vsub (getWorldPointOnBody1 c2) (getWorldPointOnBody2 c2)) (getNormal c2)) c2.

(** The squared distance of the two world anchors in the plane orthogonal to
    the normal, as the second loop of [update] computes it. *)
Definition drift (c : Contact S) : double :=
  let projOfPoint1 :=
    Vsub (getWorldPointOnBody1 c) (Vscale (getNormal c) (getPenetrationDepth c)) in
  let projDifference := Vsub (getWorldPointOnBody2 c) projOfPoint1 in
  lengthSquare projDifference.

(** The test of the second loop of [update]: the contact is removed. *)
Definition stale (c : Contact S) : bool :=
  if dleb (getPenetrationDepth c) d0 then true
  else dltb (dmul PERSISTENT_CONTACT_DIST_THRESHOLD PERSISTENT_CONTACT_DIST_THRESHOLD)
            (drift c).


End Effects.

(** ** Sequences of operations on one cache *)

Section Operations.
Context {S : Scalar} {E : Externals S}.

(** The operations of the interface (spec, section 6); [add] receives a
    contact freshly constructed in the pool, whatever its fields. *)
Inductive Operation : Type :=
  | OpAdd (newContact : Contact S)
  | OpUpdate (transform1 transform2 : Transform S)
  | OpClear.

Definition perform (op : Operation) : M unit :=
  match op with
  | OpAdd newContact =>
      contact ←' newObject newContact ;;
      addContact contact
  | OpUpdate transform1 transform2 => update transform1 transform2
  | OpClear => clear
  end.

(** Perform the operations in turn; the result lists [nbContacts] as read
    after each of them. *)
Fixpoint performAll (ops : list Operation) : M (list Z) :=
  match ops with
  | [] => ret []
  | op :: ops' =>
      perform op ;;'
      nb ←' getNbContacts ;;
      rest ←' performAll ops' ;;
      ret (nb :: rest)
  end.

(** A freshly constructed cache, whatever the pool holds. *)
Definition freshState (pool : MemoryPool S) (b1 b2 : positive) : State S :=
  mkState pool (PersistentContactCache_new b1 b2).

End Operations.

Arguments Operation : clear implicits.

(** ** The life of a cache *)

Section Lifecycle.
Context {S : Scalar} {E : Externals S}.

(** The destructor [~PersistentContactCache]: [clear()]. *)
Definition PersistentContactCache_delete : M unit := clear.

(** Some live slot holds the pointer [p]. *)
Definition isLive (st : State S) (p : positive) : Prop := ∃ i, liveAt st i p.

(** The number of [add] among the operations. *)
Fixpoint countAdds (ops : list (Operation S)) : Z :=
  match ops with
  | [] => 0
  | OpAdd _ :: ops' => 1 + countAdds ops'
  | _ :: ops' => countAdds ops'
  end.

(** The blocks given back to the pool so far, plus the live slots. *)
Definition balance (st : State S) : Z :=
  Z.of_nat (length (freed (memoryPoolContacts st))) + nbContacts (cache st).

(** The blocks in use are those of [blocks0], which hold what they held and
    are in no live slot, and the blocks of the live slots. *)
Definition ownsBeyond (blocks0 : gmap positive (Contact S)) (st : State S) : Prop :=
  ∀ p, match blocks0 !! p with
       | Some c => objectAt st p c ∧ ¬ isLive st p
       | None => is_Some (blocks (memoryPoolContacts st) !! p) → isLive st p
       end.

(** No two live slots point to contacts whose first local anchors are
    approximately equal (M3 of the spec). *)
Definition distinctAnchors (st : State S) : Prop :=
  ∀ i j ci cj, cachedAt st i ci → cachedAt st j cj → i ≠ j →
    isApproxEqual (localPointOnBody1 ci) (localPointOnBody1 cj) = false.

End Lifecycle.

(** ** Concrete arithmetic and concrete inputs *)

Section ApproxEqual.
Context {S : Scalar}.

(** Modelled from the spec: the approximate equality of two points
    (mathematics.h is not among the sources) with an absolute tolerance
    [epsilon] on each coordinate (spec, section 4.3). *)
Definition approxEqual (a b epsilon : double) : bool :=
  let difference := dsub a b in
  dltb difference epsilon && dltb (dsub d0 epsilon) difference.

Definition Vector3_approxEqual (epsilon : double) (a b : Vector3 S) : bool :=
  approxEqual (vx a) (vx b) epsilon && approxEqual (vy a) (vy b) epsilon
  && approxEqual (vz a) (vz b) epsilon.

End ApproxEqual.

(** Vectors of integers and of IEEE doubles. *)
Definition Zvec (x y z : Z) : Vector3 Z_Scalar := @mkVector3 Z_Scalar x y z.

Definition Fvec (x y z : float) : Vector3 float_Scalar := @mkVector3 float_Scalar x y z.

(** Integers: two points are approximately equal when they are equal, the
    threshold is one unit, and the orthogonal vector is the cross product of
    the axis of a smallest coordinate with the vector (not normalised). *)
Definition Z_oneOrthogonal (v : Vector3 Z_Scalar) : Vector3 Z_Scalar :=
  let ax := Z.abs (vx v) in
  let ay := Z.abs (vy v) in
  let az := Z.abs (vz v) in
  if (ax <=? ay) && (ax <=? az) then cross (Zvec 1 0 0) v
  else if ay <=? az then cross (Zvec 0 1 0) v
  else cross (Zvec 0 0 1) v.

#[export] Instance Z_Externals : Externals Z_Scalar :=
  @Build_Externals Z_Scalar 1 (@Vector3_approxEqual Z_Scalar 1) Z_oneOrthogonal.

(** IEEE doubles with the constants the spec recommends (section 6): a drift
    threshold of 0.02 and a tolerance of 1e-6, each written as the binary64
    value closest to it; the orthogonal vector follows the recipe of the
    spec (section 4.1). *)
Definition float_oneOrthogonal (v : Vector3 float_Scalar) : Vector3 float_Scalar :=
  let ax := PrimFloat.abs (vx v) in
  let ay := PrimFloat.abs (vy v) in
  let az := PrimFloat.abs (vz v) in
  let w : Vector3 float_Scalar :=
    if PrimFloat.leb ax ay && PrimFloat.leb ax az then cross (Fvec 1 0 0) v
    else if PrimFloat.leb ay az then cross (Fvec 0 1 0) v
    else cross (Fvec 0 0 1) v in
  let len := PrimFloat.sqrt (lengthSquare w) in
  Fvec (PrimFloat.div (vx w) len) (PrimFloat.div (vy w) len) (PrimFloat.div (vz w) len).

#[export] Instance float_Externals : Externals float_Scalar :=
  @Build_Externals float_Scalar 0x1.47ae147ae147bp-6%float
    (@Vector3_approxEqual float_Scalar 0x1.0c6f7a0b5ed8dp-20%float) float_oneOrthogonal.

Section Inputs.
Context {S : Scalar} {E : Externals S}.

(** A contact with normal [(0, 1, 0)], both local anchors at [p] and the
    given depth. *)
Definition contactAt (p : Vector3 S) (depth : double) : Contact S :=
  Contact_new (mkContactInfo (mkVector3 d0 d1 d0) depth p p) d0.

(** A state whose pool holds the objects [cs] in the blocks 1, 2, ... and
    whose cache holds the first [nb] of them in its slots. *)
Definition stateOf (cs : list (Contact S)) (nb : nat) : State S :=
  let ps := Pos.of_succ_nat <$> seq 0 (length cs) in
  mkState (mkMemoryPool (list_to_map (zip ps cs)) [])
          (mkCache 1 2 (take 4 ((Some <$> take nb ps) ++ replicate 4 None)) (Z.of_nat nb)).

(** A contact with normal [(0, 1, 0)], local anchors [p1] and [p2] and the
    given depth. *)
Definition contactWith (p1 p2 : Vector3 S) (depth : double) : Contact S :=
  Contact_new (mkContactInfo (mkVector3 d0 d1 d0) depth p1 p2) d0.

(** The identity transform. *)
Definition Transform_identity : Transform S :=
  mkTransform (mkVector3 d1 d0 d0, mkVector3 d0 d1 d0, mkVector3 d0 d0 d1) Vzero.

End Inputs.

(** Four cached contacts on a line, the first one the deepest, and a fifth
    contact on the same line, deeper than all but the first. *)
Definition collinearF : State float_Scalar :=
  stateOf [contactAt (Fvec 0 0 0) 5%float;
           contactAt (Fvec 1 0 0) 1%float;
           contactAt (Fvec 2 0 0) 1%float;
           contactAt (Fvec 3 0 0) 1%float;
           contactAt (Fvec 4 0 0) 2%float] 4.

(** The four [add] operations that build the cache of [collinearF] from a
    fresh one. *)
Definition collinearAdds : list (Operation float_Scalar) :=
  [OpAdd (contactAt (Fvec 0 0 0) 5%float);
   OpAdd (contactAt (Fvec 1 0 0) 1%float);
   OpAdd (contactAt (Fvec 2 0 0) 1%float);
   OpAdd (contactAt (Fvec 3 0 0) 1%float)].

(** The same cache and fifth contact on integers. *)
Definition collinearZ : State Z_Scalar :=
  stateOf [contactAt (Zvec 0 0 0) 5;
           contactAt (Zvec 1 0 0) 1;
           contactAt (Zvec 2 0 0) 1;
           contactAt (Zvec 3 0 0) 1;
           contactAt (Zvec 4 0 0) 2] 4.

(** Two cached contacts: under the identity transforms the first one keeps a
    depth of one unit and no drift, the second one has its two anchors at the
    same place, hence a depth of zero. *)
Definition restingZ : State Z_Scalar :=
  stateOf [contactWith (Zvec 0 1 0) (Zvec 0 0 0) 1;
           contactWith (Zvec 5 0 0) (Zvec 5 0 0) 1] 2.

(** The same two contacts on IEEE doubles. *)
Definition restingF : State float_Scalar :=
  stateOf [contactWith (Fvec 0 1 0) (Fvec 0 0 0) 1%float;
           contactWith (Fvec 5 0 0) (Fvec 5 0 0) 1%float] 2.

(** One cached contact, and a second contact in the pool with the same first
    local anchor. *)
Definition duplicateZ : State Z_Scalar :=
  stateOf [contactAt (Zvec 0 0 0) 1; contactAt (Zvec 0 0 0) 2] 1.

(** One cached contact, and a second contact in the pool one unit away. *)
Definition roomZ : State Z_Scalar :=
  stateOf [contactAt (Zvec 0 0 0) 1; contactAt (Zvec 1 0 0) 1] 1.

(** Four cached contacts at the corners of a square, the first one the
    deepest, and a fifth contact at its centre. *)
Definition squareZ : State Z_Scalar :=
  stateOf [contactAt (Zvec 1 0 1) 5;
           contactAt (Zvec 1 0 (-1)) 1;
           contactAt (Zvec (-1) 0 1) 1;
           contactAt (Zvec (-1) 0 (-1)) 1;
           contactAt (Zvec 0 0 0) 2] 4.

(** The cache of [squareZ] moved by [(10, 0, 5)]. *)
Definition squareMovedZ : State Z_Scalar :=
  stateOf [contactAt (Zvec 11 0 6) 5;
           contactAt (Zvec 11 0 4) 1;
           contactAt (Zvec 9 0 6) 1;
           contactAt (Zvec 9 0 4) 1;
           contactAt (Zvec 10 0 5) 2] 4.

(** Two contacts at the same place, then two more at other places. *)
Definition repeatedAdds : list (Operation Z_Scalar) :=
  [OpAdd (contactAt (Zvec 0 0 0) 1);
   OpAdd (contactAt (Zvec 0 0 0) 2);
   OpAdd (contactAt (Zvec 1 0 0) 1);
   OpUpdate Transform_identity Transform_identity;
   OpAdd (contactAt (Zvec 2 0 0) 1)].

(** One contact whose first local anchor is far up the y axis, at 2^1023, a
    finite double. *)
Definition farAdds : list (Operation float_Scalar) :=
  [OpAdd (contactWith (Fvec 0 0x1p1023 0) (Fvec 0 0 0) 1%float)].

(** The translation by 2^1023 along the y axis. *)
Definition farMove : Transform float_Scalar :=
  mkTransform (Fvec 1 0 0, Fvec 0 1 0, Fvec 0 0 1) (Fvec 0 0x1p1023 0).

(** ** Properties *)

(** Case analysis on the integer comparisons of the goal. *)
Ltac zbool :=
  repeat match goal with
  | |- context [?a <=? ?b] => destruct (Z.leb_spec a b); try lia
  | |- context [?a <? ?b] => destruct (Z.ltb_spec a b); try lia
  | |- context [?a =? ?b] => destruct (Z.eqb_spec a b); try lia
  end.

Section Running.
Context {S : Scalar}.

Lemma bind_run {A B : Type} (m : M A) (k : A → M B) (st : State S) a st' :
  m st = Some (a, st') → bind m k st = k a st'.
Proof. unfold bind. by intros ->. Qed.

Lemma bind_ret_run {A B : Type} (a : A) (k : A → M B) (st : State S) :
  bind (ret a) k st = k a st.
Proof. reflexivity. Qed.

Lemma bind_assoc_run {A B C : Type} (m : M A) (f : A → M B) (g : B → M C)
    (st : State S) :
  bind (bind m f) g st = bind m (λ a, bind (f a) g) st.
Proof. unfold bind. destruct (m st) as [[a st']|]; reflexivity. Qed.

End Running.

(** One step of a computation whose outcome [H] is known. *)
Ltac step H := rewrite (bind_run _ _ _ _ _ H).
Tactic Notation "estep" open_constr(H) := erewrite (bind_run _ _ _ _ _ H).

Section Proofs.
Context {S : Scalar} {E : Externals S}.
Implicit Types (st : State S) (p q : positive) (c : Contact S) (i j : Z).

(** *** The invariant, by index *)

Lemma liveSlots_lookup st i :
  0 ≤ i < nbContacts (cache st) →
  liveSlots st !! Z.to_nat i = contacts (cache st) !! Z.to_nat i.
Proof. intros Hi. unfold liveSlots. apply lookup_take_lt. lia. Qed.

Lemma wellFormed_nb st : wellFormed st → 0 ≤ nbContacts (cache st) ≤ 4.
Proof. intros (H & _). exact H. Qed.

Lemma wellFormed_length st : wellFormed st → length (contacts (cache st)) = 4%nat.
Proof. intros (_ & H & _). exact H. Qed.

Lemma wellFormed_live st i :
  wellFormed st → 0 ≤ i < nbContacts (cache st) →
  ∃ p c, liveAt st i p ∧ objectAt st p c.
Proof.
  intros (Hnb & Hlen & Hall & _) Hi.
  assert (Hlt : (Z.to_nat i < length (liveSlots st))%nat).
  { unfold liveSlots. rewrite length_take, Hlen.
    unfold MAX_CONTACTS_IN_CACHE in *. lia. }
  destruct (lookup_lt_is_Some_2 _ _ Hlt) as [slot Hslot].
  pose proof (Forall_lookup_1 _ _ _ _ Hall Hslot) as Ha.
  rewrite liveSlots_lookup in Hslot by done.
  destruct slot as [p|]; [|done].
  destruct Ha as [c Hc]. exists p, c. split; [split; [lia|done]|done].
Qed.

Lemma wellFormed_distinct st i j p :
  wellFormed st → liveAt st i p → liveAt st j p → i = j.
Proof.
  intros (_ & _ & _ & Hnd) [Hi Hpi] [Hj Hpj].
  rewrite <- liveSlots_lookup in Hpi, Hpj by done.
  pose proof (NoDup_lookup _ _ _ _ Hnd Hpi Hpj). lia.
Qed.

Lemma wellFormed_intro st :
  0 ≤ nbContacts (cache st) ≤ 4 →
  length (contacts (cache st)) = 4%nat →
  (∀ i, 0 ≤ i < nbContacts (cache st) → ∃ p c, liveAt st i p ∧ objectAt st p c) →
  (∀ i j p, liveAt st i p → liveAt st j p → i = j) →
  wellFormed st.
Proof.
  intros Hnb Hlen Hlive Hdist. split; [done|]. split; [done|]. split.
  - apply Forall_lookup_2. intros n slot Hn.
    apply lookup_take_Some in Hn as [Hn Hlt].
    destruct (Hlive (Z.of_nat n)) as (p & c & [_ Hp] & Hc); [lia|].
    rewrite Nat2Z.id in Hp. rewrite Hn in Hp. injection Hp as ->.
    by exists c.
  - apply NoDup_alt. intros n m slot Hn Hm.
    apply lookup_take_Some in Hn as [Hn Hnlt].
    apply lookup_take_Some in Hm as [Hm Hmlt].
    destruct (Hlive (Z.of_nat n)) as (p & c & [_ Hp] & _); [lia|].
    rewrite Nat2Z.id in Hp. rewrite Hn in Hp. injection Hp as ->.
    assert (Z.of_nat n = Z.of_nat m); [|lia].
    apply (Hdist _ _ p); (split; [lia|by rewrite Nat2Z.id]).
Qed.

(** *** Running the primitives *)

Lemma getSlot_run st i p : liveAt st i p → getSlot i st = Some (p, st).
Proof.
  intros [Hi Hp]. unfold getSlot.
  destruct (Z.leb_spec 0 i); [|lia]. by rewrite Hp.
Qed.

Lemma deref_run st p c : objectAt st p c → deref p st = Some (c, st).
Proof. unfold objectAt, deref. by intros ->. Qed.

Lemma localPointOf_run st i c :
  cachedAt st i c → localPointOf i st = Some (localPointOnBody1 c, st).
Proof.
  intros (p & Hp & Hc). unfold localPointOf.
  rewrite (bind_run _ _ _ _ _ (getSlot_run _ _ _ Hp)).
  by rewrite (bind_run _ _ _ _ _ (deref_run _ _ _ Hc)).
Qed.

Lemma penetrationDepthOf_run st i c :
  cachedAt st i c → penetrationDepthOf i st = Some (penetrationDepth c, st).
Proof.
  intros (p & Hp & Hc). unfold penetrationDepthOf.
  rewrite (bind_run _ _ _ _ _ (getSlot_run _ _ _ Hp)).
  by rewrite (bind_run _ _ _ _ _ (deref_run _ _ _ Hc)).
Qed.

Lemma wellFormed_cached st i :
  wellFormed st → 0 ≤ i < nbContacts (cache st) → ∃ c, cachedAt st i c.
Proof.
  intros Hwf Hi. destruct (wellFormed_live _ _ Hwf Hi) as (p & c & ? & ?).
  exists c, p. done.
Qed.

Lemma cachedAt_unique st i c c' : cachedAt st i c → cachedAt st i c' → c = c'.
Proof.
  intros (p & [_ Hp] & Hc) (p' & [_ Hp'] & Hc').
  rewrite Hp in Hp'. injection Hp' as <-.
  unfold objectAt in *. congruence.
Qed.

Lemma getNbContacts_run st : getNbContacts st = Some (nbContacts (cache st), st).
Proof. reflexivity. Qed.

Lemma assert_run st (b : bool) : b = true → assert b st = Some (tt, st).
Proof. by intros ->. Qed.

Lemma removeContact_run st index p :
  wellFormed st → liveAt st index p →
  ∃ st', removeContact index st = Some (tt, st')
    ∧ nbContacts (cache st') = nbContacts (cache st) - 1
    ∧ blocks (memoryPoolContacts st') = delete p (blocks (memoryPoolContacts st))
    ∧ freed (memoryPoolContacts st') = p :: freed (memoryPoolContacts st)
    ∧ body1 (cache st') = body1 (cache st) ∧ body2 (cache st') = body2 (cache st)
    ∧ ((index = nbContacts (cache st) - 1 ∧ contacts (cache st') = contacts (cache st))
       ∨ (index < nbContacts (cache st) - 1 ∧
          ∃ last, liveAt st (nbContacts (cache st) - 1) last
                  ∧ contacts (cache st') = <[Z.to_nat index := Some last]> (contacts (cache st)))).
Proof.
  intros Hwf Hp.
  pose proof (wellFormed_nb _ Hwf) as Hnb.
  pose proof (wellFormed_length _ Hwf) as Hlen.
  destruct (wellFormed_live _ index Hwf (proj1 Hp)) as (p' & c & Hp' & Hc).
  assert (p' = p) as -> by (destruct Hp as [_ Hp], Hp' as [_ Hp']; congruence).
  destruct (wellFormed_live _ (nbContacts (cache st) - 1) Hwf) as (last & cl & Hlast & _).
  { destruct Hp; lia. }
  clear Hp'. destruct Hp as [Hi Hp]. destruct Hlast as [_ Hlast]. unfold liveAt.
  unfold objectAt in Hc. clear Hwf.
  destruct st as [[bl fr] [b1 b2 cs nb]]; simpl in *.
  unfold removeContact, bind, getNbContacts, assert, ret, fail, getSlot, freeObject,
    setSlot, setNbContacts; simpl.
  destruct (Z.ltb_spec index (nb - 1)); zbool; simpl; rewrite Hp; simpl; rewrite Hc; simpl.
  - rewrite Hlast; simpl; rewrite Hlen. zbool. simpl.
    eexists. repeat (split; [reflexivity|]). right. split; [done|].
    exists last. split; [|done]. split; [lia|]. done.
  - eexists. repeat (split; [reflexivity|]). left. split; [lia|done].
Qed.

Lemma removeContact_spec st index p :
  wellFormed st → liveAt st index p →
  ∃ st', removeContact index st = Some (tt, st')
    ∧ wellFormed st'
    ∧ nbContacts (cache st') = nbContacts (cache st) - 1
    ∧ blocks (memoryPoolContacts st') = delete p (blocks (memoryPoolContacts st))
    ∧ freed (memoryPoolContacts st') = p :: freed (memoryPoolContacts st)
    ∧ (∀ j q, liveAt st' j q ↔
         j < nbContacts (cache st) - 1
         ∧ (j ≠ index ∧ liveAt st j q
            ∨ j = index ∧ liveAt st (nbContacts (cache st) - 1) q)).
Proof.
  intros Hwf Hp.
  destruct (removeContact_run _ _ _ Hwf Hp)
    as (st' & Hrun & Hnb' & Hbl & Hfr & _ & _ & Hcs).
  pose proof (wellFormed_nb _ Hwf) as Hnb.
  pose proof (wellFormed_length _ Hwf) as Hlen.
  pose proof (proj1 Hp) as Hidx.
  assert (Hlive : ∀ j q, liveAt st' j q ↔
         j < nbContacts (cache st) - 1
         ∧ (j ≠ index ∧ liveAt st j q
            ∨ j = index ∧ liveAt st (nbContacts (cache st) - 1) q)).
  { intros j q. unfold liveAt. rewrite Hnb'.
    destruct (decide (0 ≤ j)) as [Hj0|Hj0];
      [|split; [intros [? ?]; lia|intros [? [[_ [? _]]|[? _]]]; lia]].
    destruct Hcs as [[Hlast ->]|(Hlt & last & [_ Hlast] & ->)].
    - split; [intros [? ?]|intros [? [[? [? ?]]|[? _]]]]; try lia.
      + split; [lia|]. left. repeat split; try lia; done.
      + split; [lia|done].
    - destruct (decide (j = index)) as [->|Hne].
      + rewrite list_lookup_insert_eq by lia.
        split; [intros [? Hq]|intros [? [[? _]|[_ [_ Hq]]]]]; try lia.
        * split; [lia|]. right. split; [done|]. split; [lia|]. congruence.
        * split; [lia|]. congruence.
      + rewrite list_lookup_insert_ne by lia.
        split; [intros [? Hq]|intros [? [[_ [? Hq]]|[? _]]]]; try lia.
        * split; [lia|]. left. repeat split; try lia; done.
        * split; [lia|done]. }
  assert (Horig : ∀ j q, liveAt st' j q → ∃ j', liveAt st j' q ∧ j' ≠ index
                    ∧ (j ≠ index ∧ j' = j ∨ j = index ∧ j' = nbContacts (cache st) - 1)).
  { intros j q [Hj [[? ?]|[? ?]]]%Hlive; eexists; (split; [eassumption|]); lia. }
  exists st'. repeat (split; [done|]). split; [|done].
  apply wellFormed_intro.
  - lia.
  - destruct Hcs as [[_ ->]|(_ & last & _ & ->)]; [done|]. by rewrite length_insert.
  - intros j Hj.
    assert (∃ q, liveAt st' j q) as [q Hq].
    { destruct (decide (j = index)) as [->|Hne].
      - destruct (wellFormed_live _ (nbContacts (cache st) - 1) Hwf) as (q & _ & Hq & _);
          [lia|].
        exists q. apply Hlive. split; [lia|]. by right.
      - destruct (wellFormed_live _ j Hwf) as (q & _ & Hq & _); [lia|].
        exists q. apply Hlive. split; [lia|]. by left. }
    destruct (Horig _ _ Hq) as (j' & Hq' & Hne & _).
    destruct (wellFormed_live _ j' Hwf (proj1 Hq')) as (q' & c & Hq'' & Hc).
    assert (q' = q) as -> by (destruct Hq' as [_ Hq'], Hq'' as [_ Hq'']; congruence).
    exists q, c. split; [done|]. unfold objectAt in *. rewrite Hbl.
    rewrite lookup_delete_ne; [done|].
    intros ->. apply Hne. by apply (wellFormed_distinct st _ _ q).
  - intros j1 j2 q H1 H2.
    destruct (Horig _ _ H1) as (j1' & H1' & _ & Hc1).
    destruct (Horig _ _ H2) as (j2' & H2' & _ & Hc2).
    pose proof (wellFormed_distinct _ _ _ _ Hwf H1' H2').
    apply Hlive in H1 as [? _]. apply Hlive in H2 as [? _]. lia.
Qed.

(** *** Order *)
Section Order.
Context {O : OrderedScalar S}.

Lemma dleb_refl (a : double) : dleb a a = true.
Proof. by destruct (dleb_total a a). Qed.

Lemma dltb_false (a b : double) : dltb a b = false ↔ dleb b a = true.
Proof. rewrite dltb_dleb. by destruct (dleb b a). Qed.

Lemma dltb_true (a b : double) : dltb a b = true ↔ dleb b a = false.
Proof. rewrite dltb_dleb. by destruct (dleb b a). Qed.

Lemma dltb_dleb_weak (a b : double) : dltb a b = true → dleb a b = true.
Proof. rewrite dltb_true. intros H. destruct (dleb_total a b); congruence. Qed.

Lemma dleb_dltb_trans (a b c : double) :
  dleb a b = true → dltb b c = true → dltb a c = true.
Proof.
  rewrite !dltb_true. intros Hab Hbc.
  destruct (dleb c a) eqn:Hca; [|done].
  rewrite <- Hbc. symmetry. by apply (dleb_trans c a b).
Qed.

Lemma dltb_dleb_trans (a b c : double) :
  dltb a b = true → dleb b c = true → dltb a c = true.
Proof.
  rewrite !dltb_true. intros Hab Hbc.
  destruct (dleb c a) eqn:Hca; [|done].
  rewrite <- Hab. symmetry. by apply (dleb_trans b c a).
Qed.




End Order.

(** *** getMaxArea and getIndexToRemove *)

Lemma getMaxArea_range (a0 a1 a2 a3 : double) : 0 ≤ getMaxArea a0 a1 a2 a3 ≤ 3.
Proof. unfold getMaxArea. repeat case_match; lia. Qed.

Lemma getIndexToRemove_run st k newPoint c0 c1 c2 c3 :
  nbContacts (cache st) = MAX_CONTACTS_IN_CACHE →
  cachedAt st 0 c0 → cachedAt st 1 c1 → cachedAt st 2 c2 → cachedAt st 3 c3 →
  getIndexToRemove k newPoint st
  = Some (indexToRemoveOf k newPoint (localPointOnBody1 c0) (localPointOnBody1 c1)
            (localPointOnBody1 c2) (localPointOnBody1 c3), st).
Proof.
  intros Hfull H0 H1 H2 H3.
  apply localPointOf_run in H0, H1, H2, H3.
  unfold getIndexToRemove, indexToRemoveOf, areaOr.
  step (getNbContacts_run st).
  step (assert_run st _ (proj2 (Z.eqb_eq _ _) Hfull)).
  destruct (k =? 0), (k =? 1), (k =? 2), (k =? 3); cbn [negb];
    repeat first [rewrite bind_assoc_run|step H0|step H1|step H2|step H3
                 |rewrite bind_ret_run];
    reflexivity.
Qed.


(** *** addContact *)

Lemma freeObject_run st p c : objectAt st p c → freeObject p st = Some (tt, released st p).
Proof. unfold objectAt, freeObject, released. by intros ->. Qed.

Lemma cachedAt_range st i c : cachedAt st i c → 0 ≤ i < nbContacts (cache st).
Proof. by intros (p & [? _] & _). Qed.

Lemma addContactScan_spec st contact cnew n : ∀ i,
  wellFormed st → objectAt st contact cnew →
  0 ≤ i → i + Z.of_nat n = nbContacts (cache st) →
  (addContactScan n i contact st = Some (false, st)
   ∧ ∀ j c, i ≤ j → cachedAt st j c →
       isApproxEqual (localPointOnBody1 cnew) (localPointOnBody1 c) = false)
  ∨ (addContactScan n i contact st = Some (true, released st contact)
     ∧ ∃ j c, i ≤ j ∧ cachedAt st j c
         ∧ isApproxEqual (localPointOnBody1 cnew) (localPointOnBody1 c) = true).
Proof.
  induction n as [|n IH]; intros i Hwf Hnew Hi Hn.
  - left. split; [done|]. intros j c Hj Hc. apply cachedAt_range in Hc. lia.
  - destruct (wellFormed_cached st i Hwf) as [ci Hci]; [lia|].
    simpl. step (deref_run _ _ _ Hnew). step (localPointOf_run _ _ _ Hci).
    unfold getLocalPointOnBody1.
    destruct (isApproxEqual (localPointOnBody1 cnew) (localPointOnBody1 ci)) eqn:Heq.
    + right. split.
      * by step (freeObject_run _ _ _ Hnew).
      * exists i, ci. split; [lia|done].
    + destruct (IH (i + 1)) as [[Hrun Hnone]|[Hrun (j & c & Hj & Hc & Hdup)]];
        [done|done|lia|lia| |].
      * left. split; [done|]. intros j c Hj Hc.
        destruct (decide (j = i)) as [->|]; [|apply (Hnone j); [lia|done]].
        by rewrite (cachedAt_unique _ _ _ _ Hc Hci).
      * right. split; [done|]. exists j, c. split; [lia|done].
Qed.

Lemma released_cached st contact i c :
  (∀ j, ¬ liveAt st j contact) →
  cachedAt (released st contact) i c ↔ cachedAt st i c.
Proof.
  intros Hfresh. unfold cachedAt, liveAt, objectAt, released. simpl.
  split; intros (p & Hp & Hc); exists p; (split; [done|]).
  - by apply lookup_delete_Some in Hc as [_ Hc].
  - apply lookup_delete_Some. split; [|done]. intros <-. by apply (Hfresh i).
Qed.

Lemma wellFormed_released st contact :
  wellFormed st → (∀ j, ¬ liveAt st j contact) → wellFormed (released st contact).
Proof.
  intros Hwf Hfresh. apply wellFormed_intro.
  - apply (wellFormed_nb st Hwf).
  - apply (wellFormed_length st Hwf).
  - intros i Hi. destruct (wellFormed_live st i Hwf Hi) as (p & c & Hp & Hc).
    exists p, c. split; [done|]. unfold objectAt, released. simpl.
    apply lookup_delete_Some. split; [|done]. intros <-. by apply (Hfresh i).
  - intros i j p Hi Hj. by apply (wellFormed_distinct st i j p).
Qed.


Lemma deepestLoop_total st n : ∀ i maxD idx,
  wellFormed st → 0 ≤ i → i + Z.of_nat n = nbContacts (cache st) →
  ∃ r, deepestLoop n i maxD idx st = Some (r, st).
Proof.
  induction n as [|n IH]; intros i maxD idx Hwf Hi Hn.
  - by exists idx.
  - destruct (wellFormed_cached st i Hwf) as [ci Hci]; [lia|].
    simpl. step (penetrationDepthOf_run _ _ _ Hci).
    destruct (dltb maxD (penetrationDepth ci)); apply IH; done || lia.
Qed.

Lemma getIndexOfDeepestPenetration_total st newContact cnew :
  wellFormed st → nbContacts (cache st) = MAX_CONTACTS_IN_CACHE →
  objectAt st newContact cnew →
  ∃ r, getIndexOfDeepestPenetration newContact st = Some (r, st).
Proof.
  intros Hwf Hfull Hnew.
  destruct (deepestLoop_total st (Z.to_nat (nbContacts (cache st))) 0
              (penetrationDepth cnew) (-1)) as [r Hr]; [done|lia| |].
  { pose proof (wellFormed_nb _ Hwf). lia. }
  exists r. unfold getIndexOfDeepestPenetration.
  step (getNbContacts_run st).
  step (assert_run st _ (proj2 (Z.eqb_eq _ _) Hfull)).
  by step (deref_run _ _ _ Hnew).
Qed.

Lemma getIndexToRemove_total st k newPoint :
  wellFormed st → nbContacts (cache st) = MAX_CONTACTS_IN_CACHE →
  ∃ r, getIndexToRemove k newPoint st = Some (r, st) ∧ 0 ≤ r ≤ 3.
Proof.
  intros Hwf Hfull. unfold MAX_CONTACTS_IN_CACHE in Hfull.
  destruct (wellFormed_cached st 0 Hwf) as [c0 H0]; [lia|].
  destruct (wellFormed_cached st 1 Hwf) as [c1 H1]; [lia|].
  destruct (wellFormed_cached st 2 Hwf) as [c2 H2]; [lia|].
  destruct (wellFormed_cached st 3 Hwf) as [c3 H3]; [lia|].
  eexists. split; [by apply (getIndexToRemove_run st k newPoint c0 c1 c2 c3)|].
  apply getMaxArea_range.
Qed.

Lemma addContact_duplicate_run st contact cnew :
  wellFormed st → objectAt st contact cnew →
  (∃ i c, cachedAt st i c
     ∧ isApproxEqual (localPointOnBody1 cnew) (localPointOnBody1 c) = true) →
  addContact contact st = Some (tt, released st contact).
Proof.
  intros Hwf Hnew (i & c & Hc & Hdup).
  pose proof (wellFormed_nb _ Hwf) as Hnb.
  unfold addContact. step (getNbContacts_run st).
  destruct (addContactScan_spec st contact cnew (Z.to_nat (nbContacts (cache st))) 0)
    as [[_ Hnone]|[Hrun _]]; [done|done|lia|lia| |].
  - rewrite (Hnone i c) in Hdup; [done| |done]. apply cachedAt_range in Hc. lia.
  - by step Hrun.
Qed.

Lemma addContact_append_run st contact cnew :
  wellFormed st → objectAt st contact cnew →
  (∀ i c, cachedAt st i c →
     isApproxEqual (localPointOnBody1 cnew) (localPointOnBody1 c) = false) →
  nbContacts (cache st) < MAX_CONTACTS_IN_CACHE →
  addContact contact st = Some (tt, appended st contact).
Proof.
  intros Hwf Hnew Hnone Hroom.
  pose proof (wellFormed_nb _ Hwf) as Hnb.
  pose proof (wellFormed_length _ Hwf) as Hlen.
  unfold MAX_CONTACTS_IN_CACHE in *.
  unfold addContact. step (getNbContacts_run st).
  destruct (addContactScan_spec st contact cnew (Z.to_nat (nbContacts (cache st))) 0)
    as [[Hrun _]|[_ (i & c & _ & Hc & Hdup)]]; [done|done|lia|lia| |].
  - step Hrun. unfold MAX_CONTACTS_IN_CACHE.
    destruct (Z.eqb_spec (nbContacts (cache st)) 4); [lia|].
    unfold bind, ret, setSlot, getNbContacts, setNbContacts, appended. rewrite Hlen.
    zbool. done.
  - by rewrite (Hnone i c) in Hdup.
Qed.

Lemma addContact_evict_run st contact cnew :
  wellFormed st → objectAt st contact cnew →
  (∀ i, ¬ liveAt st i contact) →
  (∀ i c, cachedAt st i c →
     isApproxEqual (localPointOnBody1 cnew) (localPointOnBody1 c) = false) →
  nbContacts (cache st) = MAX_CONTACTS_IN_CACHE →
  ∃ r k old,
    getIndexOfDeepestPenetration contact st = Some (r, st)
    ∧ getIndexToRemove r (localPointOnBody1 cnew) st = Some (k, st)
    ∧ liveAt st k old
    ∧ addContact contact st = Some (tt, replaced st k old contact).
Proof.
  intros Hwf Hnew Hfresh Hnone Hfull.
  pose proof (wellFormed_length _ Hwf) as Hlen.
  destruct (getIndexOfDeepestPenetration_total st contact cnew Hwf Hfull Hnew) as [r Hr].
  destruct (getIndexToRemove_total st r (localPointOnBody1 cnew) Hwf Hfull)
    as (k & Hk & Hrange).
  assert (Hklt : 0 ≤ k < nbContacts (cache st)).
  { rewrite Hfull. unfold MAX_CONTACTS_IN_CACHE. lia. }
  destruct (wellFormed_live st k Hwf Hklt) as (old & cold & Hold & Hcold).
  exists r, k, old. repeat (split; [done|]).
  destruct (removeContact_run st k old Hwf Hold)
    as (st1 & Hrm & Hnb1 & Hbl1 & Hfr1 & Hb1 & Hb2 & Hcs1).
  unfold addContact. step (getNbContacts_run st).
  destruct (addContactScan_spec st contact cnew (Z.to_nat (nbContacts (cache st))) 0)
    as [[Hrun _]|[_ (i & c & _ & Hc & Hdup)]];
    [done|done|lia|unfold MAX_CONTACTS_IN_CACHE in *; lia| |].
  2: { by rewrite (Hnone i c) in Hdup. }
  step Hrun. rewrite (proj2 (Z.eqb_eq _ _) Hfull).
  unfold bind at 1. unfold bind at 1. rewrite Hr.
  step (deref_run _ _ _ Hnew). unfold getLocalPointOnBody1. step Hk. step Hrm.
  unfold ret at 1.
  unfold bind, ret, setSlot, getNbContacts, setNbContacts, replaced.
  assert (Hlen1 : length (contacts (cache st1)) = 4%nat).
  { destruct Hcs1 as [[_ ->]|(_ & last & _ & ->)]; [done|]. by rewrite length_insert. }
  rewrite Hlen1. zbool. simpl. do 3 f_equal.
  - destruct st1 as [[bl1 fr1] ?]. simpl in *. by subst.
  - rewrite Hb1, Hb2, Hnb1, Hfull. unfold MAX_CONTACTS_IN_CACHE. simpl. f_equal.
    destruct Hcs1 as [[_ ->]|(_ & last & _ & ->)]; [done|].
    apply list_insert_insert_eq.
Qed.


Lemma appended_live st contact i p :
  wellFormed st → nbContacts (cache st) < MAX_CONTACTS_IN_CACHE →
  liveAt (appended st contact) i p
  ↔ liveAt st i p ∨ (i = nbContacts (cache st) ∧ p = contact).
Proof.
  intros Hwf Hroom. pose proof (wellFormed_nb _ Hwf) as Hnb.
  pose proof (wellFormed_length _ Hwf) as Hlen.
  unfold MAX_CONTACTS_IN_CACHE in *. unfold liveAt, appended. simpl.
  destruct (decide (i = nbContacts (cache st))) as [->|Hne].
  - rewrite list_lookup_insert_eq by lia.
    split; [intros [_ Heq]; injection Heq as ->; by right|intros [[? _]|[_ ->]]; [lia|]].
    split; [lia|done].
  - split.
    + intros [Hi Hp]. left. split; [lia|].
      rewrite list_lookup_insert_ne in Hp by lia. done.
    + intros [[Hi Hp]|[? _]]; [|done]. split; [lia|].
      rewrite list_lookup_insert_ne by lia. done.
Qed.

Lemma wellFormed_appended st contact cnew :
  wellFormed st → objectAt st contact cnew → (∀ i, ¬ liveAt st i contact) →
  nbContacts (cache st) < MAX_CONTACTS_IN_CACHE →
  wellFormed (appended st contact).
Proof.
  intros Hwf Hnew Hfresh Hroom.
  pose proof (wellFormed_nb _ Hwf) as Hnb.
  pose proof (wellFormed_length _ Hwf) as Hlen.
  pose proof (λ i p, appended_live st contact i p Hwf Hroom) as Hlive.
  apply wellFormed_intro.
  - unfold MAX_CONTACTS_IN_CACHE in *. simpl. lia.
  - simpl. by rewrite length_insert.
  - simpl. intros i Hi.
    destruct (decide (i = nbContacts (cache st))) as [->|Hne].
    + exists contact, cnew. split; [|done]. apply Hlive. by right.
    + destruct (wellFormed_live st i Hwf) as (p & c & Hp & Hc); [lia|].
      exists p, c. split; [|done]. apply Hlive. by left.
  - intros i j p [Hi|[-> ->]]%Hlive [Hj|[-> Hp]]%Hlive.
    + by apply (wellFormed_distinct st i j p).
    + subst. by destruct (Hfresh i).
    + by destruct (Hfresh j).
    + done.
Qed.

Lemma replaced_live st k old contact i p :
  wellFormed st → liveAt st k old →
  liveAt (replaced st k old contact) i p
  ↔ (i ≠ k ∧ liveAt st i p) ∨ (i = k ∧ p = contact).
Proof.
  intros Hwf [Hk Hold]. pose proof (wellFormed_nb _ Hwf) as Hnb.
  pose proof (wellFormed_length _ Hwf) as Hlen.
  unfold liveAt, replaced. simpl.
  destruct (decide (i = k)) as [->|Hne].
  - rewrite list_lookup_insert_eq by lia.
    split; [intros [_ Heq]; injection Heq as ->; by right|intros [[? _]|[_ ->]]; [lia|]].
    split; [lia|done].
  - split.
    + intros [Hi Hp]. left. split; [lia|].
      rewrite list_lookup_insert_ne in Hp by lia. done.
    + intros [[_ [Hi Hp]]|[? _]]; [|done]. split; [lia|].
      rewrite list_lookup_insert_ne by lia. done.
Qed.

Lemma replaced_object st k old contact p c :
  objectAt (replaced st k old contact) p c ↔ p ≠ old ∧ objectAt st p c.
Proof.
  unfold objectAt, replaced. simpl. rewrite lookup_delete_Some.
  split; intros [? ?]; (split; [congruence|done]).
Qed.

Lemma wellFormed_replaced st k old contact cnew :
  wellFormed st → liveAt st k old → objectAt st contact cnew →
  (∀ i, ¬ liveAt st i contact) →
  wellFormed (replaced st k old contact).
Proof.
  intros Hwf Hold Hnew Hfresh.
  pose proof (λ i p, replaced_live st k old contact i p Hwf Hold) as Hlive.
  assert (contact ≠ old) as Hne by (intros ->; by apply (Hfresh k)).
  apply wellFormed_intro.
  - apply (wellFormed_nb st Hwf).
  - simpl. rewrite length_insert. apply (wellFormed_length st Hwf).
  - simpl. intros i Hi.
    destruct (decide (i = k)) as [->|Hik].
    + exists contact, cnew. split; [apply Hlive; by right|].
      by apply replaced_object.
    + destruct (wellFormed_live st i Hwf Hi) as (p & c & Hp & Hc).
      exists p, c. split; [apply Hlive; by left|].
      apply replaced_object. split; [|done]. intros ->.
      apply Hik. by apply (wellFormed_distinct st i k old).
  - intros i j p [[_ Hi]|[-> ->]]%Hlive [[_ Hj]|[-> Hp]]%Hlive.
    + by apply (wellFormed_distinct st i j p).
    + subst. by destruct (Hfresh i).
    + by destruct (Hfresh j).
    + done.
Qed.


(** *** update *)

Lemma modify_run st p c (f : Contact S → Contact S) :
  objectAt st p c → modify p f st = Some (tt, stored st p (f c)).
Proof. unfold objectAt, modify, stored. by intros ->. Qed.

Lemma stored_stored st p c c' : stored (stored st p c) p c' = stored st p c'.
Proof. unfold stored. simpl. by rewrite insert_insert_eq. Qed.

Lemma stored_object st p c : objectAt (stored st p c) p c.
Proof. unfold objectAt, stored. simpl. apply lookup_insert_eq. Qed.

Lemma wellFormed_same_cache st st' :
  cache st' = cache st →
  (∀ p, is_Some (blocks (memoryPoolContacts st) !! p) →
        is_Some (blocks (memoryPoolContacts st') !! p)) →
  wellFormed st → wellFormed st'.
Proof.
  intros Hcache Hblocks Hwf. apply wellFormed_intro.
  - rewrite Hcache. apply (wellFormed_nb st Hwf).
  - rewrite Hcache. apply (wellFormed_length st Hwf).
  - rewrite Hcache. intros i Hi.
    destruct (wellFormed_live st i Hwf Hi) as (p & c & Hp & Hc).
    destruct (Hblocks p) as [c' Hc']; [by exists c|].
    exists p, c'. split; [|done]. unfold liveAt. by rewrite Hcache.
  - unfold liveAt. rewrite Hcache. intros i j p. by apply (wellFormed_distinct st).
Qed.

Lemma refresh_step st transform1 transform2 i p c :
  liveAt st i p → objectAt st p c →
  ∀ (k : M unit),
  bind (getSlot i) (λ p,
    bind (modify p (λ c, setWorldPointOnBody1
                           (Transform_apply transform1 (getLocalPointOnBody1 c)) c)) (λ _,
    bind (modify p (λ c, setWorldPointOnBody2
                           (Transform_apply transform2 (getLocalPointOnBody2 c)) c)) (λ _,
    bind (modify p (λ c, setPenetrationDepth
                           (dot (Vsub (getWorldPointOnBody1 c) (getWorldPointOnBody2 c))
                                (getNormal c)) c)) (λ _, k)))) st
  = k (stored st p (refreshed transform1 transform2 c)).
Proof.
  intros Hp Hc k. step (getSlot_run _ _ _ Hp).
  estep (modify_run st p c _ Hc).
  estep (modify_run _ p _ _ (stored_object st p _)). rewrite stored_stored.
  estep (modify_run _ p _ _ (stored_object st p _)). rewrite stored_stored.
  done.
Qed.

Lemma updateRefresh_spec transform1 transform2 n : ∀ i st,
  wellFormed st → 0 ≤ i → i + Z.of_nat n = nbContacts (cache st) →
  ∃ st', updateRefresh transform1 transform2 n i st = Some (tt, st')
    ∧ wellFormed st'
    ∧ cache st' = cache st
    ∧ freed (memoryPoolContacts st') = freed (memoryPoolContacts st)
    ∧ (∀ j p, i ≤ j → liveAt st j p →
         blocks (memoryPoolContacts st') !! p
         = refreshed transform1 transform2 <$> blocks (memoryPoolContacts st) !! p)
    ∧ (∀ p, (∀ j, i ≤ j → ¬ liveAt st j p) →
         blocks (memoryPoolContacts st') !! p = blocks (memoryPoolContacts st) !! p).
Proof.
  induction n as [|n IH]; intros i st Hwf Hi Hn.
  - exists st. repeat (split; [done|]). split; [|done].
    intros j p Hj [? _]. lia.
  - destruct (wellFormed_live st i Hwf) as (p & c & Hp & Hc); [lia|].
    simpl. rewrite (refresh_step st transform1 transform2 i p c Hp Hc).
    set (st1 := stored st p (refreshed transform1 transform2 c)).
    assert (Hwf1 : wellFormed st1).
    { apply (wellFormed_same_cache st); [done| |done].
      intros q Hq. unfold st1, stored. simpl.
      rewrite lookup_insert. by case_decide. }
    destruct (IH (i + 1) st1 Hwf1) as (st' & Hrun & Hwf' & Hcache & Hfreed & Hin & Hout);
      [lia|simpl; lia|].
    exists st'. split; [done|]. split; [done|]. split; [done|]. split; [done|]. split.
    + intros j q Hj Hq. destruct (decide (j = i)) as [->|Hne].
      * assert (q = p) as -> by (destruct Hp as [_ Hp], Hq as [_ Hq]; congruence).
        rewrite Hout.
        -- unfold st1, stored. simpl. rewrite lookup_insert_eq.
           unfold objectAt in Hc. by rewrite Hc.
        -- intros j Hj' Hq'. assert (j = i); [|lia].
           by apply (wellFormed_distinct st j i p).
      * rewrite (Hin j q); [|lia|done].
        unfold st1, stored. simpl. rewrite lookup_insert_ne; [done|].
        intros ->. apply Hne. by apply (wellFormed_distinct st j i q).
    + intros q Hq. rewrite Hout.
      * unfold st1, stored. simpl. rewrite lookup_insert_ne; [done|].
        intros ->. apply (Hq i); [lia|done].
      * intros j Hj. apply Hq. lia.
Qed.


Lemma removeContact_cached st index p st' :
  wellFormed st → liveAt st index p →
  removeContact index st = Some (tt, st') →
  ∀ j c, cachedAt st' j c →
    ∃ j', cachedAt st j' c ∧ j' ≠ index
      ∧ (j' = j ∨ (j = index ∧ j' = nbContacts (cache st) - 1)).
Proof.
  intros Hwf Hp Hrun j c (q & Hq & Hc).
  destruct (removeContact_spec st index p Hwf Hp)
    as (st'' & Hrun' & _ & _ & Hbl & _ & Hlive).
  rewrite Hrun in Hrun'. injection Hrun' as <-.
  unfold objectAt in Hc. rewrite Hbl in Hc. apply lookup_delete_Some in Hc as [_ Hc].
  pose proof (proj1 Hp) as Hidx.
  apply Hlive in Hq as [Hj [[Hne Hq]|[-> Hq]]].
  - exists j. split; [by exists q|]. split; [done|]. by left.
  - exists (nbContacts (cache st) - 1). split; [by exists q|]. split; [lia|]. by right.
Qed.

Lemma stale_branch c i :
  (if dleb (getPenetrationDepth c) d0 then removeContact i
   else
     let projOfPoint1 :=
       Vsub (getWorldPointOnBody1 c) (Vscale (getNormal c) (getPenetrationDepth c)) in
     let projDifference := Vsub (getWorldPointOnBody2 c) projOfPoint1 in
     if dltb (dmul PERSISTENT_CONTACT_DIST_THRESHOLD PERSISTENT_CONTACT_DIST_THRESHOLD)
             (lengthSquare projDifference)
     then removeContact i
     else ret tt)
  = if stale c then removeContact i else ret tt.
Proof. unfold stale, drift. by repeat case_match. Qed.

Lemma updateSweep_spec n : ∀ st,
  wellFormed st → Z.of_nat n ≤ nbContacts (cache st) →
  (∀ j c, Z.of_nat n ≤ j → cachedAt st j c → stale c = false) →
  ∃ st', updateSweep n st = Some (tt, st')
    ∧ wellFormed st'
    ∧ nbContacts (cache st') ≤ nbContacts (cache st)
    ∧ (∀ j c, cachedAt st' j c → stale c = false ∧ ∃ j', cachedAt st j' c)
    ∧ (∃ rel, freed (memoryPoolContacts st') = rel ++ freed (memoryPoolContacts st)
         ∧ ∀ p, p ∈ rel → ∃ j, liveAt st j p).
Proof.
  induction n as [|n IH]; intros st Hwf Hn Hkept.
  - exists st. split; [done|]. split; [done|]. split; [lia|]. split.
    + intros j c Hc. split; [|by exists j].
      apply (Hkept j); [|done]. apply cachedAt_range in Hc. lia.
    + exists []. split; [done|]. intros p Hp. by apply elem_of_nil in Hp.
  - destruct (wellFormed_live st (Z.of_nat n) Hwf) as (p & c & Hp & Hc); [lia|].
    cbn [updateSweep]. step (getNbContacts_run st).
    rewrite (bind_run _ _ st tt st); [|apply assert_run; zbool; done].
    step (getSlot_run _ _ _ Hp). step (deref_run _ _ _ Hc).
    rewrite stale_branch. destruct (stale c) eqn:Hstale.
    + destruct (removeContact_spec st (Z.of_nat n) p Hwf Hp)
        as (st1 & Hrun & Hwf1 & Hnb1 & Hbl1 & Hfr1 & Hlive1).
      step Hrun.
      pose proof (removeContact_cached st _ p st1 Hwf Hp Hrun) as Hfrom.
      destruct (IH st1 Hwf1) as (st' & Hrun' & Hwf' & Hnb' & Hkept' & rel & Hrel & Hlive');
        [lia| |].
      { intros j c' Hj Hc'.
        destruct (Hfrom j c' Hc') as (j' & Hc'' & Hne & Hcase).
        apply (Hkept j'); [lia|done]. }
      exists st'. split; [done|]. split; [done|]. split; [lia|]. split.
      * intros j c' Hc'. destruct (Hkept' j c' Hc') as [Hs (j1 & Hc1)].
        split; [done|]. destruct (Hfrom j1 c' Hc1) as (j' & Hc'' & _). by exists j'.
      * exists (rel ++ [p]). split.
        { rewrite Hrel, Hfr1. by rewrite <- app_assoc. }
        intros q [Hq|Hq]%elem_of_app.
        -- destruct (Hlive' q Hq) as [j Hj].
           apply Hlive1 in Hj as [_ [[_ Hj]|[_ Hj]]]; eauto.
        -- apply list_elem_of_singleton in Hq as ->. by exists (Z.of_nat n).
    + unfold bind at 1, ret at 1.
      destruct (IH st Hwf) as (st' & Hrun' & Hwf' & Hnb' & Hkept' & Hrel'); [lia| |].
      { intros j c' Hj Hc'.
        destruct (decide (j = Z.of_nat n)) as [->|Hne].
        - assert (c' = c) as ->; [|done].
          apply (cachedAt_unique st (Z.of_nat n)); [done|by exists p].
        - apply (Hkept j); [lia|done]. }
      exists st'. done.
Qed.


Lemma update_empty st transform1 transform2 :
  nbContacts (cache st) = 0 → update transform1 transform2 st = Some (tt, st).
Proof.
  intros Hnb. unfold update. step (getNbContacts_run st). by rewrite Hnb.
Qed.

Lemma update_spec st transform1 transform2 :
  wellFormed st →
  ∃ st', update transform1 transform2 st = Some (tt, st')
    ∧ wellFormed st'
    ∧ nbContacts (cache st') ≤ nbContacts (cache st)
    ∧ (∀ j c, cachedAt st' j c →
         stale c = false
         ∧ ∃ j' c0, cachedAt st j' c0 ∧ c = refreshed transform1 transform2 c0)
    ∧ (∃ rel, freed (memoryPoolContacts st') = rel ++ freed (memoryPoolContacts st)
         ∧ ∀ p, p ∈ rel → ∃ j, liveAt st j p).
Proof.
  intros Hwf. pose proof (wellFormed_nb _ Hwf) as Hnb.
  destruct (decide (nbContacts (cache st) = 0)) as [Hz|Hnz].
  - exists st. split; [by apply update_empty|]. split; [done|]. split; [lia|]. split.
    + intros j c Hc%cachedAt_range. lia.
    + exists []. split; [done|]. intros p Hp. by apply elem_of_nil in Hp.
  - destruct (updateRefresh_spec transform1 transform2
                (Z.to_nat (nbContacts (cache st))) 0 st Hwf)
      as (st1 & Hrun1 & Hwf1 & Hcache & Hfreed & Hin & _); [lia|lia|].
    pose proof (wellFormed_nb _ Hwf1) as Hnb1.
    destruct (updateSweep_spec (Z.to_nat (nbContacts (cache st1))) st1 Hwf1)
      as (st' & Hrun2 & Hwf' & Hnb' & Hkept & rel & Hrel & Hlive); [lia| |].
    { intros j c Hj Hc%cachedAt_range. lia. }
    exists st'. split.
    { unfold update. step (getNbContacts_run st).
      destruct (Z.eqb_spec (nbContacts (cache st)) 0); [done|].
      step Hrun1. by step (getNbContacts_run st1). }
    split; [done|]. split; [by rewrite <- Hcache|]. split.
    + intros j c Hc. destruct (Hkept j c Hc) as [Hs (j' & q & Hq & Hobj)].
      split; [done|].
      assert (Hq' : liveAt st j' q) by (unfold liveAt in *; by rewrite <- Hcache).
      unfold objectAt in Hobj. rewrite (Hin j' q) in Hobj; [|apply Hq'|done].
      destruct (blocks (memoryPoolContacts st) !! q) as [c0|] eqn:Hc0; [|done].
      injection Hobj as <-. exists j', c0. split; [by exists q|done].
    + exists rel. split; [by rewrite Hrel, Hfreed|].
      intros p Hp. destruct (Hlive p Hp) as [j Hj]. exists j.
      unfold liveAt in *. by rewrite <- Hcache.
Qed.

(** *** clear *)

Lemma clearLoop_released n : ∀ i st,
  0 ≤ i → i + Z.of_nat n = nbContacts (cache st) →
  (∀ j, i ≤ j < nbContacts (cache st) → ∃ p c, liveAt st j p ∧ objectAt st p c) →
  (∀ j j' p, i ≤ j → liveAt st j p → liveAt st j' p → j = j') →
  ∃ st' rel, clearLoop n i st = Some (tt, st')
    ∧ cache st' = cache st
    ∧ freed (memoryPoolContacts st') = rel ++ freed (memoryPoolContacts st)
    ∧ length rel = n
    ∧ ∀ p, p ∈ rel ↔ ∃ j, i ≤ j ∧ liveAt st j p.
Proof.
  induction n as [|n IH]; intros i st Hi Hn Hlive Hdist.
  - exists st, []. repeat (split; [done|]). intros p. split.
    + intros Hp. by apply elem_of_nil in Hp.
    + intros (j & Hj & [? _]). lia.
  - destruct (Hlive i) as (p & c & Hp & Hc); [lia|].
    simpl. step (getSlot_run _ _ _ Hp). step (freeObject_run _ _ _ Hc).
    destruct (IH (i + 1) (released st p)) as (st' & rel & Hrun & Hcache & Hrel & Hlen & Hmem);
      [lia|simpl; lia| | |].
    + simpl. intros j Hj. destruct (Hlive j) as (q & cq & Hq & Hcq); [lia|].
      exists q, cq. split; [done|]. unfold objectAt, released. simpl.
      apply lookup_delete_Some. split; [|done].
      intros <-. assert (i = j); [|lia]. apply (Hdist i j p); [lia|done|done].
    + intros j j' q Hj Hq Hq'. apply (Hdist j j' q); [lia|done|done].
    + exists st', (rel ++ [p]). split; [done|]. split; [done|]. split.
      { rewrite Hrel. simpl. by rewrite <- app_assoc. }
      split; [rewrite length_app, Hlen; simpl; lia|].
      intros q. rewrite elem_of_app, list_elem_of_singleton, Hmem. split.
      * intros [(j & Hj & Hq) | ->]; [exists j; split; [lia|done]|exists i; split; [lia|done]].
      * intros (j & Hj & Hq). destruct (decide (j = i)) as [->|Hne].
        -- right. destruct Hp as [_ Hp], Hq as [_ Hq]. congruence.
        -- left. exists j. split; [lia|done].
Qed.

Lemma clear_spec st :
  wellFormed st →
  ∃ st', clear st = Some (tt, st')
    ∧ wellFormed st'
    ∧ nbContacts (cache st') = 0.
Proof.
  intros Hwf. pose proof (wellFormed_nb _ Hwf) as Hnb.
  destruct (clearLoop_released (Z.to_nat (nbContacts (cache st))) 0 st)
    as (st1 & rel & Hrun & Hcache & _); [lia|lia| | |].
  { intros j Hj. by apply wellFormed_live. }
  { intros j j' p _. by apply wellFormed_distinct. }
  eexists. split.
  { unfold clear. step (getNbContacts_run st). step Hrun. reflexivity. }
  split; [|done].
  apply wellFormed_intro; simpl.
  - done.
  - rewrite Hcache. by apply wellFormed_length.
  - intros i Hi. lia.
  - intros i j p [Hi _]. simpl in Hi. lia.
Qed.

Lemma wellFormed_stored st p c : wellFormed st → wellFormed (stored st p c).
Proof.
  apply wellFormed_same_cache; [done|].
  intros q Hq. unfold stored. simpl. rewrite lookup_insert. by case_decide.
Qed.

Lemma newObject_run st c :
  ∃ p, newObject c st = Some (p, stored st p c)
    ∧ blocks (memoryPoolContacts st) !! p = None.
Proof.
  eexists. split; [reflexivity|].
  apply not_elem_of_dom. apply is_fresh.
Qed.

Lemma addContact_wellFormed st contact cnew :
  wellFormed st → objectAt st contact cnew → (∀ i, ¬ liveAt st i contact) →
  ∃ st', addContact contact st = Some (tt, st') ∧ wellFormed st'.
Proof.
  intros Hwf Hnew Hfresh. pose proof (wellFormed_nb _ Hwf) as Hnb.
  destruct (addContactScan_spec st contact cnew (Z.to_nat (nbContacts (cache st))) 0)
    as [[_ Hnone]|[_ (i & c & _ & Hc & Hdup)]]; [done|done|lia|lia| |].
  - assert (Hnone' : ∀ i c, cachedAt st i c →
              isApproxEqual (localPointOnBody1 cnew) (localPointOnBody1 c) = false).
    { intros i c Hc. apply (Hnone i); [|done]. apply cachedAt_range in Hc. lia. }
    destruct (decide (nbContacts (cache st) = MAX_CONTACTS_IN_CACHE)) as [Hfull|Hroom].
    + destruct (addContact_evict_run st contact cnew Hwf Hnew Hfresh Hnone' Hfull)
        as (r & k & old & _ & _ & Hold & Hrun).
      eexists. split; [exact Hrun|]. by apply (wellFormed_replaced st k old contact cnew).
    + assert (nbContacts (cache st) < MAX_CONTACTS_IN_CACHE) as Hlt
        by (unfold MAX_CONTACTS_IN_CACHE in *; lia).
      eexists. split; [by apply (addContact_append_run st contact cnew)|].
      by apply (wellFormed_appended st contact cnew).
  - eexists. split; [apply (addContact_duplicate_run st contact cnew); eauto|].
    by apply wellFormed_released.
Qed.

Lemma perform_wellFormed st op :
  wellFormed st → ∃ st', perform op st = Some (tt, st') ∧ wellFormed st'.
Proof.
  intros Hwf. destruct op as [cnew|T1 T2|]; simpl.
  - destruct (newObject_run st cnew) as (p & Hrun & Hnone).
    step Hrun. apply (addContact_wellFormed _ p cnew).
    + by apply wellFormed_stored.
    + apply stored_object.
    + intros i [Hi Hp].
      destruct (wellFormed_live st i Hwf Hi) as (p' & c & [_ Hp'] & Hc).
      simpl in Hp. rewrite Hp in Hp'. injection Hp' as <-.
      unfold objectAt in Hc. congruence.
  - destruct (update_spec st T1 T2 Hwf) as (st' & Hrun & Hwf' & _). by exists st'.
  - destruct (clear_spec st Hwf) as (st' & Hrun & Hwf' & _). by exists st'.
Qed.

Lemma performAll_wellFormed ops : ∀ st,
  wellFormed st →
  ∃ counts st', performAll ops st = Some (counts, st')
    ∧ length counts = length ops
    ∧ Forall (λ nb, 0 ≤ nb ≤ MAX_CONTACTS_IN_CACHE) counts.
Proof.
  induction ops as [|op ops IH]; intros st Hwf.
  - exists [], st. by repeat split.
  - destruct (perform_wellFormed st op Hwf) as (st1 & Hrun & Hwf1).
    destruct (IH st1 Hwf1) as (counts & st' & Hrun' & Hlen & Hall).
    exists (nbContacts (cache st1) :: counts), st'. split.
    { simpl. step Hrun. step (getNbContacts_run st1). by step Hrun'. }
    split; [simpl; by rewrite Hlen|].
    constructor; [apply (wellFormed_nb st1 Hwf1)|done].
Qed.

Lemma wellFormed_freshState (pool : MemoryPool S) b1 b2 : wellFormed (freshState pool b1 b2).
Proof.
  apply wellFormed_intro; simpl; [lia|done| |].
  - intros i Hi. lia.
  - intros i j p [Hi _]. simpl in Hi. lia.
Qed.

(** C7.  A freshly constructed cache has [nbContacts = 0], and whatever
    sequence of [add], [update] and [clear] is applied to it, every operation
    returns and [nbContacts] read after each of them lies between 0 and 4. *)
Theorem nbContacts_bounded (ops : list (Operation S)) (pool : MemoryPool S) (b1 b2 : positive) :
  nbContacts (cache (freshState pool b1 b2)) = 0
  ∧ ∃ counts st', performAll ops (freshState pool b1 b2) = Some (counts, st')
      ∧ length counts = length ops
      ∧ Forall (λ nb, 0 ≤ nb ≤ 4) counts.
Proof. split; [done|]. apply performAll_wellFormed, wellFormed_freshState. Qed.

(** *** Checking the hypotheses on a given state *)

Lemma notLive_intro st p : Some p ∉ liveSlots st → ∀ i, ¬ liveAt st i p.
Proof.
  intros Hnot i [Hi Hp]. apply Hnot. apply list_elem_of_lookup.
  exists (Z.to_nat i). by rewrite liveSlots_lookup.
Qed.

Lemma differsFrom_intro st v :
  Forall (differsFrom st v) (liveSlots st) →
  ∀ i c, cachedAt st i c → isApproxEqual v (localPointOnBody1 c) = false.
Proof.
  intros Hall i c (p & [Hi Hp] & Hc).
  rewrite <- liveSlots_lookup in Hp by done.
  pose proof (Forall_lookup_1 _ _ _ _ Hall Hp) as Hd.
  unfold differsFrom, objectAt in *. by rewrite Hc in Hd.
Qed.

Lemma cachedAt_intro st i p c :
  0 ≤ i < nbContacts (cache st) →
  contacts (cache st) !! Z.to_nat i = Some (Some p) →
  blocks (memoryPoolContacts st) !! p = Some c →
  cachedAt st i c.
Proof. intros Hi Hp Hc. by exists p. Qed.

(** *** The claims on update *)

(** C3.  From a well-formed state [update] returns, and every slot below
    [nbContacts] then points to a contact that fails both removal tests of
    the sweep, whatever the arithmetic: its depth is not [<= 0] and its
    squared drift, the squared length of
    [worldPointOnBody2 - (worldPointOnBody1 - normal * penetrationDepth)], is
    not [>] the square of the threshold.  Hence its depth is at least zero
    whenever it is comparable with zero, and its squared drift is at most the
    square of the threshold whenever the two are comparable; on IEEE doubles
    this is every value but NaN. *)
Theorem update_keeps_valid_contacts st transform1 transform2 :
  wellFormed st →
  ∃ st', update transform1 transform2 st = Some (tt, st')
    ∧ ∀ i, 0 ≤ i < nbContacts (cache st') →
        ∃ c, cachedAt st' i c
          ∧ dleb (penetrationDepth c) d0 = false
          ∧ dltb (dmul PERSISTENT_CONTACT_DIST_THRESHOLD PERSISTENT_CONTACT_DIST_THRESHOLD)
                 (lengthSquare
                    (Vsub (worldPointOnBody2 c)
                          (Vsub (worldPointOnBody1 c)
                                (Vscale (normal c) (penetrationDepth c)))))
            = false
          ∧ (dleb (penetrationDepth c) d0 = true ∨ dleb d0 (penetrationDepth c) = true →
             dleb d0 (penetrationDepth c) = true)
          ∧ (dltb (dmul PERSISTENT_CONTACT_DIST_THRESHOLD PERSISTENT_CONTACT_DIST_THRESHOLD)
                  (lengthSquare
                     (Vsub (worldPointOnBody2 c)
                           (Vsub (worldPointOnBody1 c)
                                 (Vscale (normal c) (penetrationDepth c)))))
              = true
             ∨ dleb (lengthSquare
                       (Vsub (worldPointOnBody2 c)
                             (Vsub (worldPointOnBody1 c)
                                   (Vscale (normal c) (penetrationDepth c)))))
                    (dmul PERSISTENT_CONTACT_DIST_THRESHOLD PERSISTENT_CONTACT_DIST_THRESHOLD)
               = true →
             dleb (lengthSquare
                     (Vsub (worldPointOnBody2 c)
                           (Vsub (worldPointOnBody1 c)
                                 (Vscale (normal c) (penetrationDepth c)))))
                  (dmul PERSISTENT_CONTACT_DIST_THRESHOLD PERSISTENT_CONTACT_DIST_THRESHOLD)
             = true).
Proof.
  intros Hwf.
  destruct (update_spec st transform1 transform2 Hwf) as (st' & Hrun & Hwf' & _ & Hkept & _).
  exists st'. split; [done|]. intros i Hi.
  destruct (wellFormed_cached st' i Hwf' Hi) as [c Hc].
  exists c. split; [done|].
  destruct (Hkept i c Hc) as [Hs _]. unfold stale, drift in Hs.
  unfold getPenetrationDepth, getWorldPointOnBody1, getWorldPointOnBody2, getNormal in Hs.
  destruct (dleb (penetrationDepth c) d0) eqn:Hd; [done|].
  split; [done|]. split; [exact Hs|]. split.
  - intros [H|H]; [done|exact H].
  - intros [H|H]; [congruence|exact H].
Qed.

(** C6.  From a well-formed state [update] returns, and every slot below
    [nbContacts] then points to a contact whose world anchors are the
    transforms applied to its local anchors and whose depth is
    [(worldPointOnBody1 - worldPointOnBody2) . normal]. *)
Theorem update_refreshes_contacts st transform1 transform2 :
  wellFormed st →
  ∃ st', update transform1 transform2 st = Some (tt, st')
    ∧ ∀ i, 0 ≤ i < nbContacts (cache st') →
        ∃ c, cachedAt st' i c
          ∧ worldPointOnBody1 c = Transform_apply transform1 (localPointOnBody1 c)
          ∧ worldPointOnBody2 c = Transform_apply transform2 (localPointOnBody2 c)
          ∧ penetrationDepth c
            = dot (Vsub (worldPointOnBody1 c) (worldPointOnBody2 c)) (normal c).
Proof.
  intros Hwf.
  destruct (update_spec st transform1 transform2 Hwf) as (st' & Hrun & Hwf' & _ & Hkept & _).
  exists st'. split; [done|]. intros i Hi.
  destruct (wellFormed_cached st' i Hwf' Hi) as [c Hc].
  exists c. split; [done|].
  destruct (Hkept i c Hc) as [_ (j & c0 & _ & ->)]. done.
Qed.

(** C10.  [update] on a cache with [nbContacts = 0] leaves the whole state
    as it is; in general it does not increase [nbContacts], and every block it
    gives back to the pool was pointed to by a live slot at entry. *)
Theorem update_frame st transform1 transform2 :
  wellFormed st →
  ∃ st', update transform1 transform2 st = Some (tt, st')
    ∧ (nbContacts (cache st) = 0 → st' = st)
    ∧ nbContacts (cache st') ≤ nbContacts (cache st)
    ∧ ∃ rel, freed (memoryPoolContacts st') = rel ++ freed (memoryPoolContacts st)
        ∧ ∀ p, p ∈ rel → ∃ i, liveAt st i p.
Proof.
  intros Hwf.
  destruct (update_spec st transform1 transform2 Hwf) as (st' & Hrun & _ & Hnb & _ & Hrel).
  exists st'. split; [done|]. split; [|done].
  intros Hz. rewrite (update_empty st _ _ Hz) in Hrun. by injection Hrun.
Qed.

(** *** The claims on add *)

(** C4.  When the first local anchor of the new contact is approximately
    equal to that of a cached contact, [addContact] gives the new contact's
    block back to the pool, once, and changes nothing else: the cache object
    ([nbContacts] and the array) and the cached contacts are the same. *)
Theorem addContact_duplicate st contact cnew :
  wellFormed st → objectAt st contact cnew → (∀ i, ¬ liveAt st i contact) →
  (∃ i c, cachedAt st i c
     ∧ isApproxEqual (localPointOnBody1 cnew) (localPointOnBody1 c) = true) →
  ∃ st', addContact contact st = Some (tt, st')
    ∧ freed (memoryPoolContacts st') = contact :: freed (memoryPoolContacts st)
    ∧ blocks (memoryPoolContacts st') = delete contact (blocks (memoryPoolContacts st))
    ∧ cache st' = cache st
    ∧ ∀ i c, cachedAt st' i c ↔ cachedAt st i c.
Proof.
  intros Hwf Hnew Hfresh Hdup. exists (released st contact).
  split; [by apply (addContact_duplicate_run st contact cnew)|].
  repeat (split; [done|]). intros i c. by apply released_cached.
Qed.

(** C9.  In a full cache, when the new contact repeats no cached one,
    [addContact] evicts the slot [k] that [getIndexToRemove] returns: the new
    contact is in slot [k], [nbContacts] is 4 again, the block of the old slot
    [k] went back to the pool, and each other slot holds the pointer and the
    object it held before; in particular slot 3 when [k < 3]. *)
Theorem addContact_full_keeps_slots st contact cnew :
  wellFormed st → objectAt st contact cnew → (∀ i, ¬ liveAt st i contact) →
  (∀ i c, cachedAt st i c →
     isApproxEqual (localPointOnBody1 cnew) (localPointOnBody1 c) = false) →
  nbContacts (cache st) = MAX_CONTACTS_IN_CACHE →
  ∃ r k old st',
    getIndexOfDeepestPenetration contact st = Some (r, st)
    ∧ getIndexToRemove r (localPointOnBody1 cnew) st = Some (k, st)
    ∧ addContact contact st = Some (tt, st')
    ∧ 0 ≤ k < 4 ∧ liveAt st k old
    ∧ nbContacts (cache st') = 4
    ∧ liveAt st' k contact ∧ objectAt st' contact cnew
    ∧ freed (memoryPoolContacts st') = old :: freed (memoryPoolContacts st)
    ∧ (∀ i p c, i ≠ k → liveAt st i p → objectAt st p c →
         liveAt st' i p ∧ objectAt st' p c)
    ∧ (k < 3 → ∀ p c, liveAt st 3 p → objectAt st p c →
         liveAt st' 3 p ∧ objectAt st' p c).
Proof.
  intros Hwf Hnew Hfresh Hnone Hfull.
  destruct (addContact_evict_run st contact cnew Hwf Hnew Hfresh Hnone Hfull)
    as (r & k & old & Hr & Hk & Hold & Hrun).
  exists r, k, old, (replaced st k old contact).
  repeat (split; [done|]).
  assert (Hkeep : ∀ i p c, i ≠ k → liveAt st i p → objectAt st p c →
            liveAt (replaced st k old contact) i p
            ∧ objectAt (replaced st k old contact) p c).
  { intros i p c Hne Hp Hc. split.
    - apply replaced_live; [done|done|]. by left.
    - apply replaced_object. split; [|done]. intros ->.
      apply Hne. by apply (wellFormed_distinct st i k old). }
  split; [destruct Hold as [Hold _]; rewrite Hfull in Hold; done|].
  split; [done|]. split; [done|]. split; [apply replaced_live; [done|done|by right]|].
  split; [apply replaced_object; split; [|done]; intros ->; by apply (Hfresh k)|].
  split; [done|]. split; [done|].
  intros Hlt p c. apply Hkeep. lia.
Qed.

(** *** Further properties of the operations *)

(** X2 (P5 of the spec).  [clear] returns with [nbContacts = 0], and the
    blocks it gives back to the pool are exactly those the live slots pointed
    to, as many as [nbContacts] was. *)
Theorem clear_releases_all st :
  wellFormed st →
  ∃ st' rel, clear st = Some (tt, st')
    ∧ nbContacts (cache st') = 0
    ∧ freed (memoryPoolContacts st') = rel ++ freed (memoryPoolContacts st)
    ∧ Z.of_nat (length rel) = nbContacts (cache st)
    ∧ ∀ p, p ∈ rel ↔ ∃ i, liveAt st i p.
Proof.
  intros Hwf. pose proof (wellFormed_nb _ Hwf) as Hnb.
  destruct (clearLoop_released (Z.to_nat (nbContacts (cache st))) 0 st)
    as (st1 & rel & Hrun & Hcache & Hrel & Hlen & Hmem); [lia|lia| | |].
  { intros j Hj. by apply wellFormed_live. }
  { intros j j' p _. by apply wellFormed_distinct. }
  eexists _, rel. split.
  { unfold clear. step (getNbContacts_run st). step Hrun. reflexivity. }
  split; [done|]. split; [done|]. split; [lia|].
  intros p. rewrite Hmem. split.
  - intros (j & _ & Hj). by exists j.
  - intros (j & Hj). exists j. split; [apply Hj|done].
Qed.

(** X1.  Whatever the arithmetic (IEEE doubles included), every contact that
    is live after [update] fails both removal tests of the sweep: its depth
    is not [<= 0] and its squared drift is not [>] the squared threshold. *)
Theorem update_survivors_pass_tests st transform1 transform2 :
  wellFormed st →
  ∃ st', update transform1 transform2 st = Some (tt, st')
    ∧ ∀ i, 0 ≤ i < nbContacts (cache st') →
        ∃ c, cachedAt st' i c
          ∧ dleb (penetrationDepth c) d0 = false
          ∧ dltb (dmul PERSISTENT_CONTACT_DIST_THRESHOLD PERSISTENT_CONTACT_DIST_THRESHOLD)
                 (lengthSquare
                    (Vsub (worldPointOnBody2 c)
                          (Vsub (worldPointOnBody1 c)
                                (Vscale (normal c) (penetrationDepth c)))))
            = false.
Proof.
  intros Hwf.
  destruct (update_spec st transform1 transform2 Hwf) as (st' & Hrun & Hwf' & _ & Hkept & _).
  exists st'. split; [done|]. intros i Hi.
  destruct (wellFormed_cached st' i Hwf' Hi) as [c Hc].
  exists c. split; [done|].
  destruct (Hkept i c Hc) as [Hs _]. unfold stale in Hs.
  by destruct (dleb (getPenetrationDepth c) d0) eqn:Hd.
Qed.

(** X3.  In a cache with room, a new contact that repeats no cached one is
    written at index [nbContacts], which grows by one; the pool and the other
    slots are as before. *)
Theorem addContact_appends st contact cnew :
  wellFormed st → objectAt st contact cnew → (∀ i, ¬ liveAt st i contact) →
  (∀ i c, cachedAt st i c →
     isApproxEqual (localPointOnBody1 cnew) (localPointOnBody1 c) = false) →
  nbContacts (cache st) < MAX_CONTACTS_IN_CACHE →
  ∃ st', addContact contact st = Some (tt, st')
    ∧ nbContacts (cache st') = nbContacts (cache st) + 1
    ∧ liveAt st' (nbContacts (cache st)) contact
    ∧ memoryPoolContacts st' = memoryPoolContacts st
    ∧ ∀ i p, liveAt st i p → liveAt st' i p.
Proof.
  intros Hwf Hnew Hfresh Hnone Hroom. exists (appended st contact).
  split; [by apply (addContact_append_run st contact cnew)|].
  split; [done|]. split; [apply appended_live; [done|done|by right]|].
  split; [done|]. intros i p Hp. apply appended_live; [done|done|by left].
Qed.

(** X4.  [removeContact] is a swap-remove: the block of slot [index] goes
    back to the pool, [nbContacts] decreases by one, the array is left as it
    is when [index] was the last live slot, and otherwise the former last
    slot is the new content of slot [index]. *)
Theorem removeContact_swap_remove st index p :
  wellFormed st → liveAt st index p →
  ∃ st', removeContact index st = Some (tt, st')
    ∧ nbContacts (cache st') = nbContacts (cache st) - 1
    ∧ blocks (memoryPoolContacts st') = delete p (blocks (memoryPoolContacts st))
    ∧ freed (memoryPoolContacts st') = p :: freed (memoryPoolContacts st)
    ∧ (index = nbContacts (cache st) - 1 → contacts (cache st') = contacts (cache st))
    ∧ (∀ j q, liveAt st' j q ↔
         j < nbContacts (cache st) - 1
         ∧ (j ≠ index ∧ liveAt st j q
            ∨ j = index ∧ liveAt st (nbContacts (cache st) - 1) q)).
Proof.
  intros Hwf Hp.
  destruct (removeContact_spec st index p Hwf Hp)
    as (st' & Hrun & _ & Hnb & Hbl & Hfr & Hlive).
  exists st'. repeat (split; [done|]). split; [|done].
  intros Hlast.
  destruct (removeContact_run st index p Hwf Hp)
    as (st'' & Hrun' & _ & _ & _ & _ & _ & [[_ Hcs]|[Hlt _]]); [|lia].
  rewrite Hrun in Hrun'. by injection Hrun' as <-.
Qed.

Section OrderedEviction.
Context {O : OrderedScalar S}.

Lemma getMaxArea_upper (area0 area1 area2 area3 : double) j :
  0 ≤ j ≤ 3 →
  dleb (areaAt area0 area1 area2 area3 j)
       (areaAt area0 area1 area2 area3 (getMaxArea area0 area1 area2 area3)) = true.
Proof.
  intros Hj. unfold getMaxArea.
  destruct (dltb area0 area1) eqn:H01; destruct (dltb area1 area2) eqn:H12;
  destruct (dltb area2 area3) eqn:H23; destruct (dltb area1 area3) eqn:H13;
  destruct (dltb area0 area2) eqn:H02; destruct (dltb area0 area3) eqn:H03;
  repeat match goal with
         | H : dltb _ _ = false |- _ => apply dltb_false in H
         end;
  (assert (j = 0 ∨ j = 1 ∨ j = 2 ∨ j = 3) as [-> | [-> | [-> | ->]]] by lia);
  unfold areaAt; simpl;
  eauto 6 using dleb_refl, dltb_dleb_weak, dleb_trans.
Qed.

(** X5.  The protection of the deepest contact works whenever some candidate
    has a positive area: [getIndexToRemove] then returns an index other than
    the protected one.  Scalars are compared in a total order. *)
Theorem getIndexToRemove_spares_protected st r newPoint k c0 c1 c2 c3 :
  nbContacts (cache st) = MAX_CONTACTS_IN_CACHE →
  cachedAt st 0 c0 → cachedAt st 1 c1 → cachedAt st 2 c2 → cachedAt st 3 c3 →
  getIndexToRemove r newPoint st = Some (k, st) →
  (∃ j, 0 ≤ j ≤ 3
     ∧ dltb d0 (candidateArea r newPoint (localPointOnBody1 c0) (localPointOnBody1 c1)
                  (localPointOnBody1 c2) (localPointOnBody1 c3) j) = true) →
  k ≠ r.
Proof.
  intros Hfull H0 H1 H2 H3 Hrun (j & Hj & Hpos) ->.
  rewrite (getIndexToRemove_run st r newPoint c0 c1 c2 c3 Hfull H0 H1 H2 H3) in Hrun.
  injection Hrun as Hr. unfold indexToRemoveOf in Hr. unfold candidateArea in Hpos.
  set (a0 := areaOr r 0 _ _ _ _) in *. set (a1 := areaOr r 1 _ _ _ _) in *.
  set (a2 := areaOr r 2 _ _ _ _) in *. set (a3 := areaOr r 3 _ _ _ _) in *.
  pose proof (getMaxArea_range a0 a1 a2 a3) as Hrange.
  pose proof (getMaxArea_upper a0 a1 a2 a3 j Hj) as Hup.
  rewrite Hr in Hup, Hrange. rewrite <- dltb_false in Hup.
  assert (Hzero : areaAt a0 a1 a2 a3 r = d0).
  { unfold a0, a1, a2, a3, areaOr.
    assert (r = 0 ∨ r = 1 ∨ r = 2 ∨ r = 3) as [-> | [-> | [-> | ->]]] by lia; reflexivity. }
  rewrite Hzero in Hup. congruence.
Qed.

End OrderedEviction.

(** *** getMaxArea and the friction basis *)

Section OrderedAreas.
Context {O : OrderedScalar S}.

(** C2, amended.  [getMaxArea] returns an index between 0 and 3 whose score
    is a maximum of the four, and every lower index has a strictly smaller
    score: among tied maxima it returns the lowest index.  Scalars are
    compared in a total order. *)
Theorem getMaxArea_spec (area0 area1 area2 area3 : double) :
  let k := getMaxArea area0 area1 area2 area3 in
  0 ≤ k ≤ 3
  ∧ (∀ j, 0 ≤ j ≤ 3 →
       dleb (areaAt area0 area1 area2 area3 j) (areaAt area0 area1 area2 area3 k) = true)
  ∧ (∀ j, 0 ≤ j < k →
       dltb (areaAt area0 area1 area2 area3 j) (areaAt area0 area1 area2 area3 k) = true).
Proof.
  unfold getMaxArea.
  destruct (dltb area0 area1) eqn:H01; destruct (dltb area1 area2) eqn:H12;
  destruct (dltb area2 area3) eqn:H23; destruct (dltb area1 area3) eqn:H13;
  destruct (dltb area0 area2) eqn:H02; destruct (dltb area0 area3) eqn:H03;
  cbv zeta; (split; [lia|]);
  repeat match goal with
         | H : dltb _ _ = false |- _ => apply dltb_false in H
         end;
  (split; intros j Hj;
   (assert (j = 0 ∨ j = 1 ∨ j = 2 ∨ j = 3) as [-> | [-> | [-> | ->]]] by lia);
   unfold areaAt; simpl; try lia;
   eauto 6 using dleb_refl, dltb_dleb_weak, dleb_trans, dleb_dltb_trans, dltb_dleb_trans).
Qed.

End OrderedAreas.

Section Exact.
Context {X : ExactScalar S}.

Add Ring double_ring : d_ring.

Lemma cross_triple (n t : Vector3 S) :
  lengthSquare t = d1 → dot n t = d0 → cross t (cross n t) = n.
Proof.
  destruct n as [nx ny nz], t as [tx ty tz].
  unfold lengthSquare, dot, cross. simpl. intros Hunit Horth. f_equal.
  - transitivity
      (dsub (dmul nx (dadd (dadd (dmul tx tx) (dmul ty ty)) (dmul tz tz)))
            (dmul tx (dadd (dadd (dmul nx tx) (dmul ny ty)) (dmul nz tz)))); [ring|].
    rewrite Hunit, Horth. ring.
  - transitivity
      (dsub (dmul ny (dadd (dadd (dmul tx tx) (dmul ty ty)) (dmul tz tz)))
            (dmul ty (dadd (dadd (dmul nx tx) (dmul ny ty)) (dmul nz tz)))); [ring|].
    rewrite Hunit, Horth. ring.
  - transitivity
      (dsub (dmul nz (dadd (dadd (dmul tx tx) (dmul ty ty)) (dmul tz tz)))
            (dmul tz (dadd (dadd (dmul nx tx) (dmul ny ty)) (dmul nz tz)))); [ring|].
    rewrite Hunit, Horth. ring.
Qed.

Lemma cross_lengthSquare (n t : Vector3 S) :
  lengthSquare n = d1 → lengthSquare t = d1 → dot n t = d0 →
  lengthSquare (cross n t) = d1.
Proof.
  destruct n as [nx ny nz], t as [tx ty tz].
  unfold lengthSquare, dot, cross. simpl. intros Hn Ht Horth.
  transitivity
    (dsub (dmul (dadd (dadd (dmul nx nx) (dmul ny ny)) (dmul nz nz))
                (dadd (dadd (dmul tx tx) (dmul ty ty)) (dmul tz tz)))
          (dmul (dadd (dadd (dmul nx tx) (dmul ny ty)) (dmul nz tz))
                (dadd (dadd (dmul nx tx) (dmul ny ty)) (dmul nz tz)))); [ring|].
  rewrite Hn, Ht, Horth. ring.
Qed.

Lemma dot_cross_right (n t : Vector3 S) : dot t (cross n t) = d0.
Proof. destruct n, t. unfold dot, cross. simpl. ring. Qed.

Lemma dot_cross_left (n t : Vector3 S) : dot n (cross n t) = d0.
Proof. destruct n, t. unfold dot, cross. simpl. ring. Qed.

(** C8.  For a contact whose normal is a unit vector, when
    [getOneOrthogonalVector] returns a unit vector orthogonal to the normal,
    [computeFrictionVectors] leaves two friction vectors [t1], [t2] with
    [t1 x t2 = normal], both of unit length and orthogonal to each other and
    to the normal.  Arithmetic is exact.  The constructor [Contact_new] is
    [computeFrictionVectors] applied to the copied fields. *)
Theorem computeFrictionVectors_frame (c : Contact S) :
  lengthSquare (normal c) = d1 →
  lengthSquare (getOneOrthogonalVector (normal c)) = d1 →
  dot (normal c) (getOneOrthogonalVector (normal c)) = d0 →
  ∃ t1 t2,
    frictionVectors (computeFrictionVectors c) = [t1; t2]
    ∧ normal (computeFrictionVectors c) = normal c
    ∧ cross t1 t2 = normal c
    ∧ lengthSquare t1 = d1 ∧ lengthSquare t2 = d1
    ∧ dot t1 t2 = d0 ∧ dot (normal c) t1 = d0 ∧ dot (normal c) t2 = d0.
Proof.
  intros Hn Ht Horth.
  exists (getOneOrthogonalVector (normal c)),
         (cross (normal c) (getOneOrthogonalVector (normal c))).
  split; [done|]. split; [done|].
  split; [by apply cross_triple|].
  split; [done|]. split; [by apply cross_lengthSquare|].
  split; [apply dot_cross_right|]. split; [done|apply dot_cross_left].
Qed.

End Exact.

End Proofs.

(** ** The operations, block by block *)

Section Histories.
Context {S : Scalar} {E : Externals S}.
Implicit Types (st : State S) (p q : positive) (c : Contact S) (i j : Z).

(** *** Which pointers are live *)

Lemma isLive_object st p : wellFormed st → isLive st p → ∃ c, objectAt st p c.
Proof.
  intros Hwf [i Hp].
  destruct (wellFormed_live st i Hwf (proj1 Hp)) as (p' & c & Hp' & Hc).
  assert (p' = p) as -> by (destruct Hp as [_ Hp], Hp' as [_ Hp']; congruence).
  by exists c.
Qed.

Lemma isLive_cached st p c : isLive st p → objectAt st p c → ∃ i, cachedAt st i c.
Proof. intros [i Hp] Hc. exists i, p. done. Qed.

Lemma cached_isLive st i c : cachedAt st i c → ∃ p, isLive st p ∧ objectAt st p c.
Proof. intros (p & Hp & Hc). exists p. split; [by exists i|done]. Qed.

Lemma isLive_empty st p : nbContacts (cache st) = 0 → ¬ isLive st p.
Proof. intros Hz [i [Hi _]]. lia. Qed.

Lemma removeContact_isLive st index p st' :
  wellFormed st → liveAt st index p →
  removeContact index st = Some (tt, st') →
  ∀ q, isLive st' q ↔ q ≠ p ∧ isLive st q.
Proof.
  intros Hwf Hp Hrun q.
  destruct (removeContact_spec st index p Hwf Hp)
    as (st'' & Hrun' & _ & _ & _ & _ & Hlive).
  rewrite Hrun in Hrun'. injection Hrun' as <-.
  pose proof (proj1 Hp) as Hidx. split.
  - intros [j Hq]. apply Hlive in Hq as [Hj [[Hne Hq]|[-> Hq]]].
    + split; [|by exists j]. intros ->. apply Hne.
      by apply (wellFormed_distinct st j index p).
    + split; [|by eexists]. intros ->.
      assert (nbContacts (cache st) - 1 = index); [|lia].
      by apply (wellFormed_distinct st _ _ p).
  - intros [Hne [j Hq]].
    assert (j ≠ index) as Hj by (intros ->; destruct Hp as [_ Hp], Hq as [_ Hq]; congruence).
    pose proof (proj1 Hq) as Hjr.
    destruct (decide (j < nbContacts (cache st) - 1)) as [Hlt|Hge].
    + exists j. apply Hlive. split; [done|]. by left.
    + assert (j = nbContacts (cache st) - 1) as -> by lia.
      exists index. apply Hlive. split; [lia|]. by right.
Qed.

(** *** The sweep of update, block by block *)

Lemma updateSweep_exact n : ∀ st,
  wellFormed st → Z.of_nat n ≤ nbContacts (cache st) →
  (∀ j c, Z.of_nat n ≤ j → cachedAt st j c → stale c = false) →
  ∃ st' rel, updateSweep n st = Some (tt, st')
    ∧ wellFormed st'
    ∧ freed (memoryPoolContacts st') = rel ++ freed (memoryPoolContacts st)
    ∧ nbContacts (cache st') = nbContacts (cache st) - Z.of_nat (length rel)
    ∧ (∀ p, p ∈ rel ↔ ∃ c, isLive st p ∧ objectAt st p c ∧ stale c = true)
    ∧ (∀ p, isLive st' p ↔ ∃ c, isLive st p ∧ objectAt st p c ∧ stale c = false)
    ∧ (∀ p, p ∈ rel → blocks (memoryPoolContacts st') !! p = None)
    ∧ (∀ p, p ∉ rel →
         blocks (memoryPoolContacts st') !! p = blocks (memoryPoolContacts st) !! p).
Proof.
  induction n as [|n IH]; intros st Hwf Hn Hkept.
  - exists st, []. split; [done|]. split; [done|]. split; [done|].
    split; [simpl; lia|]. split; [|split; [|split; [|done]]].
    + intros p. split; [intros Hp; by apply elem_of_nil in Hp|].
      intros (c & [j Hj] & Hc & Hs).
      rewrite (Hkept j c) in Hs; [done| |by exists p]. destruct Hj. lia.
    + intros p. split.
      * intros Hp. destruct (isLive_object st p Hwf Hp) as [c Hc].
        exists c. split; [done|]. split; [done|].
        destruct Hp as [j Hj]. apply (Hkept j); [destruct Hj; lia|by exists p].
      * by intros (c & Hp & _).
    + intros p Hp. by apply elem_of_nil in Hp.
  - destruct (wellFormed_live st (Z.of_nat n) Hwf) as (p & c & Hp & Hc); [lia|].
    cbn [updateSweep]. step (getNbContacts_run st).
    rewrite (bind_run _ _ st tt st); [|apply assert_run; zbool; done].
    step (getSlot_run _ _ _ Hp). step (deref_run _ _ _ Hc).
    rewrite stale_branch. destruct (stale c) eqn:Hstale.
    + destruct (removeContact_spec st (Z.of_nat n) p Hwf Hp)
        as (st1 & Hrun & Hwf1 & Hnb1 & Hbl1 & Hfr1 & Hlive1).
      step Hrun.
      pose proof (removeContact_cached st _ p st1 Hwf Hp Hrun) as Hfrom.
      pose proof (removeContact_isLive st _ p st1 Hwf Hp Hrun) as Hiff.
      assert (Hobj1 : ∀ q c', objectAt st1 q c' ↔ q ≠ p ∧ objectAt st q c').
      { intros q c'. unfold objectAt. rewrite Hbl1, lookup_delete_Some.
        split; intros [? ?]; (split; [congruence|done]). }
      destruct (IH st1 Hwf1)
        as (st' & rel & Hrun' & Hwf' & Hrel & Hnb' & Hin & Hout & Hnone & Hsame); [lia| |].
      { intros j c' Hj Hc'.
        destruct (Hfrom j c' Hc') as (j' & Hc'' & Hne & Hcase).
        apply (Hkept j'); [lia|done]. }
      exists st', (rel ++ [p]). split; [done|]. split; [done|].
      split; [rewrite Hrel, Hfr1; by rewrite <- app_assoc|].
      split; [rewrite length_app; simpl; lia|].
      split; [|split; [|split]].
      * intros q. rewrite elem_of_app, list_elem_of_singleton, Hin. split.
        -- intros [(c' & [Hne Hq]%Hiff & [_ Hc']%Hobj1 & Hs) | ->].
           ++ by exists c'.
           ++ exists c. split; [by exists (Z.of_nat n)|done].
        -- intros (c' & Hq & Hc' & Hs). destruct (decide (q = p)) as [->|Hne]; [by right|].
           left. exists c'. split; [by apply Hiff|]. split; [by apply Hobj1|done].
      * intros q. rewrite Hout. split.
        -- intros (c' & [Hne Hq]%Hiff & [_ Hc']%Hobj1 & Hs). by exists c'.
        -- intros (c' & Hq & Hc' & Hs). exists c'.
           assert (q ≠ p) as Hne.
           { intros ->. unfold objectAt in *. congruence. }
           split; [by apply Hiff|]. split; [by apply Hobj1|done].
      * intros q [Hq | ->%list_elem_of_singleton]%elem_of_app; [by apply Hnone|].
        destruct (decide (p ∈ rel)) as [Hp'|Hp']; [by apply Hnone|].
        rewrite Hsame by done. rewrite Hbl1. apply lookup_delete_eq.
      * intros q Hq. rewrite elem_of_app, list_elem_of_singleton in Hq.
        rewrite Hsame by tauto. rewrite Hbl1. apply lookup_delete_ne. intros ->. tauto.
    + unfold bind at 1, ret at 1.
      apply (IH st Hwf); [lia|].
      intros j c' Hj Hc'.
      destruct (decide (j = Z.of_nat n)) as [->|Hne].
      * assert (c' = c) as ->; [|done].
        apply (cachedAt_unique st (Z.of_nat n)); [done|by exists p].
      * apply (Hkept j); [lia|done].
Qed.

Lemma updateSweep_keep n : ∀ st,
  wellFormed st → Z.of_nat n ≤ nbContacts (cache st) →
  (∀ j c, cachedAt st j c → stale c = false) →
  updateSweep n st = Some (tt, st).
Proof.
  induction n as [|n IH]; intros st Hwf Hn Hkept; [done|].
  destruct (wellFormed_live st (Z.of_nat n) Hwf) as (p & c & Hp & Hc); [lia|].
  cbn [updateSweep]. step (getNbContacts_run st).
  rewrite (bind_run _ _ st tt st); [|apply assert_run; zbool; done].
  step (getSlot_run _ _ _ Hp). step (deref_run _ _ _ Hc).
  rewrite stale_branch. rewrite (Hkept (Z.of_nat n) c); [|by exists p].
  unfold bind at 1, ret at 1. apply IH; [done|lia|done].
Qed.

Lemma isLive_same_cache st st' p : cache st' = cache st → isLive st' p ↔ isLive st p.
Proof. intros Hc. unfold isLive, liveAt. by rewrite Hc. Qed.

Lemma update_exact st transform1 transform2 :
  wellFormed st →
  ∃ st' rel, update transform1 transform2 st = Some (tt, st')
    ∧ wellFormed st'
    ∧ freed (memoryPoolContacts st') = rel ++ freed (memoryPoolContacts st)
    ∧ nbContacts (cache st') = nbContacts (cache st) - Z.of_nat (length rel)
    ∧ (∀ p, p ∈ rel ↔
         ∃ c0, isLive st p ∧ objectAt st p c0
               ∧ stale (refreshed transform1 transform2 c0) = true)
    ∧ (∀ p, isLive st' p ↔
         ∃ c0, isLive st p ∧ objectAt st p c0
               ∧ stale (refreshed transform1 transform2 c0) = false)
    ∧ (∀ p c0, isLive st' p → objectAt st p c0 →
         objectAt st' p (refreshed transform1 transform2 c0))
    ∧ (∀ p, p ∈ rel → blocks (memoryPoolContacts st') !! p = None)
    ∧ (∀ p, ¬ isLive st p →
         blocks (memoryPoolContacts st') !! p = blocks (memoryPoolContacts st) !! p).
Proof.
  intros Hwf. pose proof (wellFormed_nb _ Hwf) as Hnb.
  destruct (decide (nbContacts (cache st) = 0)) as [Hz|Hnz].
  - exists st, []. split; [by apply update_empty|]. split; [done|]. split; [done|].
    split; [simpl; lia|].
    split; [|split; [|split; [|split; [|done]]]].
    + intros p. split; [intros Hp; by apply elem_of_nil in Hp|].
      intros (c0 & Hp & _). by destruct (isLive_empty st p Hz).
    + intros p. split; [intros Hp|intros (c0 & Hp & _)]; by destruct (isLive_empty st p Hz).
    + intros p c0 Hp. by destruct (isLive_empty st p Hz).
    + intros p Hp. by apply elem_of_nil in Hp.
  - destruct (updateRefresh_spec transform1 transform2
                (Z.to_nat (nbContacts (cache st))) 0 st Hwf)
      as (st1 & Hrun1 & Hwf1 & Hcache & Hfreed & Hin & Hout); [lia|lia|].
    pose proof (wellFormed_nb _ Hwf1) as Hnb1.
    destruct (updateSweep_exact (Z.to_nat (nbContacts (cache st1))) st1 Hwf1)
      as (st' & rel & Hrun2 & Hwf' & Hrel & Hnb' & Hmem & Hlive & Hnone & Hsame); [lia| |].
    { intros j c Hj Hc%cachedAt_range. lia. }
    assert (Hobj : ∀ p, isLive st p → ∀ c, objectAt st1 p c ↔
              ∃ c0, objectAt st p c0 ∧ c = refreshed transform1 transform2 c0).
    { intros p [j Hj] c. unfold objectAt. rewrite (Hin j p); [|apply Hj|done].
      destruct (blocks (memoryPoolContacts st) !! p) as [c0|]; simpl.
      - split; [intros [= <-]; by exists c0|intros (c0' & [= <-] & ->); done].
      - split; [done|intros (c0' & ? & _); done]. }
    exists st', rel. split.
    { unfold update. step (getNbContacts_run st).
      destruct (Z.eqb_spec (nbContacts (cache st)) 0); [done|].
      step Hrun1. by step (getNbContacts_run st1). }
    split; [done|]. split; [by rewrite Hrel, Hfreed|]. split; [by rewrite Hnb', Hcache|].
    split; [|split; [|split; [|split; [done|]]]].
    + intros p. rewrite Hmem. split.
      * intros (c & Hp%(isLive_same_cache st st1 p Hcache) & Hc & Hs).
        apply (Hobj p Hp) in Hc as (c0 & Hc0 & ->). by exists c0.
      * intros (c0 & Hp & Hc0 & Hs). exists (refreshed transform1 transform2 c0).
        split; [by apply (isLive_same_cache st st1 p Hcache)|].
        split; [apply (Hobj p Hp); by exists c0|done].
    + intros p. rewrite Hlive. split.
      * intros (c & Hp%(isLive_same_cache st st1 p Hcache) & Hc & Hs).
        apply (Hobj p Hp) in Hc as (c0 & Hc0 & ->). by exists c0.
      * intros (c0 & Hp & Hc0 & Hs). exists (refreshed transform1 transform2 c0).
        split; [by apply (isLive_same_cache st st1 p Hcache)|].
        split; [apply (Hobj p Hp); by exists c0|done].
    + intros p c0 Hp' Hc0.
      pose proof (proj1 (Hlive p) Hp') as (c & Hp%(isLive_same_cache st st1 p Hcache) & Hc & Hs).
      assert (p ∉ rel) as Hnot.
      { intros (c' & _ & Hc' & Hs')%Hmem. unfold objectAt in *. congruence. }
      unfold objectAt. rewrite (Hsame p Hnot). apply (Hobj p Hp). by exists c0.
    + intros p Hp.
      assert (p ∉ rel) as Hnot.
      { intros (c' & Hp'%(isLive_same_cache st st1 p Hcache) & _)%Hmem. done. }
      rewrite (Hsame p Hnot). apply Hout. intros j _ Hj. apply Hp. by exists j.
Qed.

Lemma refreshed_refreshed transform1 transform2 c :
  refreshed transform1 transform2 (refreshed transform1 transform2 c)
  = refreshed transform1 transform2 c.
Proof. by destruct c. Qed.

Lemma update_fixpoint st transform1 transform2 :
  wellFormed st →
  (∀ i c, cachedAt st i c → refreshed transform1 transform2 c = c ∧ stale c = false) →
  update transform1 transform2 st = Some (tt, st).
Proof.
  intros Hwf Hfix. pose proof (wellFormed_nb _ Hwf) as Hnb.
  destruct (decide (nbContacts (cache st) = 0)) as [Hz|Hnz]; [by apply update_empty|].
  destruct (updateRefresh_spec transform1 transform2
              (Z.to_nat (nbContacts (cache st))) 0 st Hwf)
    as (st1 & Hrun1 & Hwf1 & Hcache & Hfreed & Hin & Hout); [lia|lia|].
  assert (st1 = st) as ->.
  { assert (Hbl : blocks (memoryPoolContacts st1) = blocks (memoryPoolContacts st)).
    { apply map_eq. intros p.
      destruct (blocks (memoryPoolContacts st) !! p) as [c|] eqn:Hc.
      - destruct (decide (Some p ∈ liveSlots st)) as [Hl|Hl].
        + apply list_elem_of_lookup in Hl as [n Hn].
          apply lookup_take_Some in Hn as [Hn Hlt].
          assert (Hp : liveAt st (Z.of_nat n) p) by (split; [lia|by rewrite Nat2Z.id]).
          rewrite (Hin (Z.of_nat n) p); [|lia|done]. rewrite Hc. simpl. f_equal.
          apply (Hfix (Z.of_nat n)). by exists p.
        + rewrite Hout; [done|]. intros j _. by apply notLive_intro.
      - destruct (decide (Some p ∈ liveSlots st)) as [Hl|Hl].
        + apply list_elem_of_lookup in Hl as [n Hn].
          apply lookup_take_Some in Hn as [Hn Hlt].
          rewrite (Hin (Z.of_nat n) p); [by rewrite Hc|lia|].
          split; [lia|by rewrite Nat2Z.id].
        + rewrite Hout; [done|]. intros j _. by apply notLive_intro. }
    destruct st1 as [[bl1 fr1] c1], st as [[bl fr] c0]. simpl in *. by subst. }
  unfold update. step (getNbContacts_run st).
  destruct (Z.eqb_spec (nbContacts (cache st)) 0); [done|].
  step Hrun1. step (getNbContacts_run st).
  apply updateSweep_keep; [done|lia|]. intros j c Hc. by apply (Hfix j).
Qed.

(** *** clear, block by block *)

Lemma clearLoop_exact n : ∀ i st,
  0 ≤ i → i + Z.of_nat n = nbContacts (cache st) →
  (∀ j, i ≤ j < nbContacts (cache st) → ∃ p c, liveAt st j p ∧ objectAt st p c) →
  (∀ j j' p, i ≤ j → liveAt st j p → liveAt st j' p → j = j') →
  ∃ st' rel, clearLoop n i st = Some (tt, st')
    ∧ cache st' = cache st
    ∧ freed (memoryPoolContacts st') = rel ++ freed (memoryPoolContacts st)
    ∧ length rel = n
    ∧ (∀ p, p ∈ rel ↔ ∃ j, i ≤ j ∧ liveAt st j p)
    ∧ (∀ p, p ∈ rel → blocks (memoryPoolContacts st') !! p = None)
    ∧ (∀ p, p ∉ rel →
         blocks (memoryPoolContacts st') !! p = blocks (memoryPoolContacts st) !! p).
Proof.
  induction n as [|n IH]; intros i st Hi Hn Hlive Hdist.
  - exists st, []. repeat (split; [done|]). split; [|split; [|done]].
    + intros p. split; [intros Hp; by apply elem_of_nil in Hp|].
      intros (j & Hj & [? _]). lia.
    + intros p Hp. by apply elem_of_nil in Hp.
  - destruct (Hlive i) as (p & c & Hp & Hc); [lia|].
    simpl. step (getSlot_run _ _ _ Hp). step (freeObject_run _ _ _ Hc).
    destruct (IH (i + 1) (released st p))
      as (st' & rel & Hrun & Hcache & Hrel & Hlen & Hmem & Hnone & Hsame);
      [lia|simpl; lia| | |].
    + simpl. intros j Hj. destruct (Hlive j) as (q & cq & Hq & Hcq); [lia|].
      exists q, cq. split; [done|]. unfold objectAt, released. simpl.
      apply lookup_delete_Some. split; [|done].
      intros <-. assert (i = j); [|lia]. apply (Hdist i j p); [lia|done|done].
    + intros j j' q Hj Hq Hq'. apply (Hdist j j' q); [lia|done|done].
    + exists st', (rel ++ [p]). split; [done|]. split; [done|]. split.
      { rewrite Hrel. simpl. by rewrite <- app_assoc. }
      split; [rewrite length_app, Hlen; simpl; lia|].
      split; [|split].
      * intros q. rewrite elem_of_app, list_elem_of_singleton, Hmem. split.
        -- intros [(j & Hj & Hq) | ->];
             [exists j; split; [lia|done]|exists i; split; [lia|done]].
        -- intros (j & Hj & Hq). destruct (decide (j = i)) as [->|Hne].
           ++ right. destruct Hp as [_ Hp], Hq as [_ Hq]. congruence.
           ++ left. exists j. split; [lia|done].
      * intros q [Hq | ->%list_elem_of_singleton]%elem_of_app; [by apply Hnone|].
        destruct (decide (p ∈ rel)) as [Hp'|Hp']; [by apply Hnone|].
        rewrite Hsame by done. simpl. apply lookup_delete_eq.
      * intros q Hq. rewrite elem_of_app, list_elem_of_singleton in Hq.
        rewrite Hsame by tauto. simpl. apply lookup_delete_ne. intros ->. tauto.
Qed.

Lemma clear_exact st :
  wellFormed st →
  ∃ st' rel, clear st = Some (tt, st')
    ∧ wellFormed st'
    ∧ nbContacts (cache st') = 0
    ∧ freed (memoryPoolContacts st') = rel ++ freed (memoryPoolContacts st)
    ∧ Z.of_nat (length rel) = nbContacts (cache st)
    ∧ (∀ p, isLive st p → blocks (memoryPoolContacts st') !! p = None)
    ∧ (∀ p, ¬ isLive st p →
         blocks (memoryPoolContacts st') !! p = blocks (memoryPoolContacts st) !! p).
Proof.
  intros Hwf. pose proof (wellFormed_nb _ Hwf) as Hnb.
  destruct (clearLoop_exact (Z.to_nat (nbContacts (cache st))) 0 st)
    as (st1 & rel & Hrun & Hcache & Hrel & Hlen & Hmem & Hnone & Hsame); [lia|lia| | |].
  { intros j Hj. by apply wellFormed_live. }
  { intros j j' p _. by apply wellFormed_distinct. }
  eexists _, rel. split.
  { unfold clear. step (getNbContacts_run st). step Hrun. reflexivity. }
  split; [|split; [done|split; [done|split; [lia|split]]]].
  - apply wellFormed_intro; simpl.
    + done.
    + rewrite Hcache. by apply wellFormed_length.
    + intros i Hi. lia.
    + intros i j p [Hi _]. simpl in Hi. lia.
  - intros p [j Hj]. simpl. apply Hnone, Hmem. exists j. split; [apply Hj|done].
  - intros p Hp. simpl. apply Hsame. intros (j & _ & Hj)%Hmem. apply Hp. by exists j.
Qed.

Lemma isLive_cases st p : isLive st p ∨ ¬ isLive st p.
Proof.
  destruct (decide (Some p ∈ liveSlots st)) as [Hin|Hout].
  - left. apply list_elem_of_lookup in Hin as [n Hn].
    apply lookup_take_Some in Hn as [Hn Hlt].
    exists (Z.of_nat n). split; [lia|by rewrite Nat2Z.id].
  - right. intros [i Hi]. by apply (notLive_intro st p Hout i).
Qed.

(** *** The three outcomes of add *)

Lemma unused_notLive st p :
  wellFormed st → blocks (memoryPoolContacts st) !! p = None → ¬ isLive st p.
Proof.
  intros Hwf Hnone Hp. destruct (isLive_object st p Hwf Hp) as [c Hc].
  unfold objectAt in Hc. congruence.
Qed.

Lemma stored_cached st p c i c' :
  wellFormed st → blocks (memoryPoolContacts st) !! p = None →
  cachedAt (stored st p c) i c' ↔ cachedAt st i c'.
Proof.
  intros Hwf Hnone.
  assert (Hne : ∀ q, liveAt st i q → q ≠ p).
  { intros q Hq ->. apply (unused_notLive st p Hwf Hnone). by exists i. }
  split; intros (q & Hq & Hc); exists q; (split; [exact Hq|]);
    unfold objectAt, stored in *; simpl in *.
  - rewrite lookup_insert_ne in Hc; [done|]. intros ->. by apply (Hne q).
  - rewrite lookup_insert_ne; [done|]. intros ->. by apply (Hne q).
Qed.

Lemma perform_add_cases st cnew :
  wellFormed st →
  ∃ p, blocks (memoryPoolContacts st) !! p = None
    ∧ (((∃ i c, cachedAt st i c
           ∧ isApproxEqual (localPointOnBody1 cnew) (localPointOnBody1 c) = true)
        ∧ perform (OpAdd cnew) st = Some (tt, released (stored st p cnew) p))
       ∨ ((∀ i c, cachedAt st i c →
             isApproxEqual (localPointOnBody1 cnew) (localPointOnBody1 c) = false)
          ∧ ((nbContacts (cache st) < MAX_CONTACTS_IN_CACHE
              ∧ perform (OpAdd cnew) st = Some (tt, appended (stored st p cnew) p))
             ∨ (nbContacts (cache st) = MAX_CONTACTS_IN_CACHE
                ∧ ∃ k old, liveAt st k old
                    ∧ perform (OpAdd cnew) st
                      = Some (tt, replaced (stored st p cnew) k old p))))).
Proof.
  intros Hwf. pose proof (wellFormed_nb _ Hwf) as Hnb.
  destruct (newObject_run st cnew) as (p & Hrun & Hnone).
  exists p. split; [done|].
  set (st0 := stored st p cnew).
  assert (Hwf0 : wellFormed st0) by by apply wellFormed_stored.
  assert (Hnew : objectAt st0 p cnew) by apply stored_object.
  assert (Hfresh : ∀ i, ¬ liveAt st0 i p).
  { intros i Hi. apply (unused_notLive st p Hwf Hnone). by exists i. }
  assert (Hcached : ∀ i c, cachedAt st0 i c ↔ cachedAt st i c).
  { intros i c. by apply stored_cached. }
  simpl. step Hrun. fold st0.
  destruct (addContactScan_spec st0 p cnew (Z.to_nat (nbContacts (cache st0))) 0)
    as [[_ Hscan]|[_ (i & c & _ & Hc & Hdup)]]; [done|done|lia|simpl; lia| |].
  - right.
    assert (Hnone0 : ∀ i c, cachedAt st0 i c →
              isApproxEqual (localPointOnBody1 cnew) (localPointOnBody1 c) = false).
    { intros i c Hc. apply (Hscan i); [|done]. apply cachedAt_range in Hc. lia. }
    split; [intros i c Hc; apply (Hnone0 i), Hcached, Hc|].
    destruct (decide (nbContacts (cache st) = MAX_CONTACTS_IN_CACHE)) as [Hfull|Hroom].
    + right. split; [done|].
      destruct (addContact_evict_run st0 p cnew Hwf0 Hnew Hfresh Hnone0 Hfull)
        as (r & k & old & _ & _ & Hold & Hadd).
      by exists k, old.
    + left. assert (nbContacts (cache st) < MAX_CONTACTS_IN_CACHE) as Hlt
        by (unfold MAX_CONTACTS_IN_CACHE in *; lia).
      split; [done|]. by apply (addContact_append_run st0 p cnew).
  - left. split; [exists i, c; split; [by apply Hcached|done]|].
    apply (addContact_duplicate_run st0 p cnew); [done|done|]. by exists i, c.
Qed.

Lemma released_stored_blocks st p c :
  blocks (memoryPoolContacts st) !! p = None →
  blocks (memoryPoolContacts (released (stored st p c) p)) = blocks (memoryPoolContacts st).
Proof. intros Hnone. simpl. by apply delete_insert_id. Qed.

Lemma appended_isLive st p c q :
  wellFormed st → nbContacts (cache st) < MAX_CONTACTS_IN_CACHE →
  isLive (appended (stored st p c) p) q ↔ isLive st q ∨ q = p.
Proof.
  intros Hwf Hroom.
  pose proof (λ i q, appended_live (stored st p c) p i q (wellFormed_stored st p c Hwf) Hroom)
    as Hlive.
  split.
  - intros [i [Hq|[_ ->]]%Hlive]; [left; by exists i|by right].
  - intros [[i Hq]| ->].
    + exists i. apply Hlive. by left.
    + exists (nbContacts (cache st)). apply Hlive. by right.
Qed.

Lemma appended_cached st p c i c' :
  wellFormed st → blocks (memoryPoolContacts st) !! p = None →
  nbContacts (cache st) < MAX_CONTACTS_IN_CACHE →
  cachedAt (appended (stored st p c) p) i c'
  ↔ cachedAt st i c' ∨ (i = nbContacts (cache st) ∧ c' = c).
Proof.
  intros Hwf Hnone Hroom.
  pose proof (λ i q, appended_live (stored st p c) p i q (wellFormed_stored st p c Hwf) Hroom)
    as Hlive.
  split.
  - intros (q & [Hq|[-> ->]]%Hlive & Hc).
    + left. apply (stored_cached st p c); [done|done|]. by exists q.
    + right. split; [done|]. unfold objectAt in Hc. simpl in Hc.
      rewrite lookup_insert_eq in Hc. congruence.
  - intros [Hc|[-> ->]].
    + apply (stored_cached st p c) in Hc as (q & Hq & Hc); [|done|done].
      exists q. split; [|done]. apply Hlive. by left.
    + exists p. split; [apply Hlive; by right|]. apply stored_object.
Qed.

Lemma replaced_isLive st p c k old q :
  wellFormed st → liveAt st k old →
  isLive (replaced (stored st p c) k old p) q ↔ (q ≠ old ∧ isLive st q) ∨ q = p.
Proof.
  intros Hwf Hold.
  pose proof (λ i q, replaced_live (stored st p c) k old p i q
                       (wellFormed_stored st p c Hwf) Hold) as Hlive.
  split.
  - intros [i [[Hne Hq]|[_ ->]]%Hlive]; [left|by right].
    split; [|by exists i]. intros ->. apply Hne.
    by apply (wellFormed_distinct st i k old).
  - intros [[Hne [i Hq]]| ->].
    + exists i. apply Hlive. left. split; [|done]. intros ->. apply Hne.
      destruct Hq as [_ Hq], Hold as [_ Hold]. congruence.
    + exists k. apply Hlive. by right.
Qed.

Lemma replaced_cached st p c k old i c' :
  wellFormed st → blocks (memoryPoolContacts st) !! p = None → liveAt st k old →
  cachedAt (replaced (stored st p c) k old p) i c'
  ↔ (i ≠ k ∧ cachedAt st i c') ∨ (i = k ∧ c' = c).
Proof.
  intros Hwf Hnone Hold.
  pose proof (λ i q, replaced_live (stored st p c) k old p i q
                       (wellFormed_stored st p c Hwf) Hold) as Hlive.
  assert (Hpold : p ≠ old).
  { intros ->. apply (unused_notLive st old Hwf Hnone). by exists k. }
  split.
  - intros (q & [[Hne Hq]|[-> ->]]%Hlive & [Hqo Hc]%replaced_object).
    + left. split; [done|]. apply (stored_cached st p c); [done|done|]. by exists q.
    + right. split; [done|]. unfold objectAt in Hc. simpl in Hc.
      rewrite lookup_insert_eq in Hc. congruence.
  - intros [[Hne Hc]|[-> ->]].
    + apply (stored_cached st p c) in Hc as (q & Hq & Hc); [|done|done].
      exists q. split; [apply Hlive; by left|].
      apply replaced_object. split; [|done]. intros ->. apply Hne.
      by apply (wellFormed_distinct st i k old).
    + exists p. split; [apply Hlive; by right|].
      apply replaced_object. split; [done|]. apply stored_object.
Qed.

(** *** Invariants of a sequence of operations *)

Lemma performAll_invariant (I : State S → Prop) :
  (∀ st op st', wellFormed st → I st → perform op st = Some (tt, st') → I st') →
  ∀ ops st counts st',
    wellFormed st → I st → performAll ops st = Some (counts, st') →
    wellFormed st' ∧ I st'.
Proof.
  intros Hstep. induction ops as [|op ops IH]; intros st counts st' Hwf HI Hrun.
  - injection Hrun as _ <-. done.
  - destruct (perform_wellFormed st op Hwf) as (st1 & Hrun1 & Hwf1).
    simpl in Hrun. rewrite (bind_run _ _ _ _ _ Hrun1) in Hrun.
    rewrite (bind_run _ _ _ _ _ (getNbContacts_run st1)) in Hrun.
    unfold bind at 1 in Hrun.
    destruct (performAll ops st1) as [[rest st2]|] eqn:Hrest; [|done].
    injection Hrun as _ <-.
    apply (IH st1 rest st2); [done| |done]. by apply (Hstep st op).
Qed.

Lemma performAll_total ops st :
  wellFormed st → ∃ counts st', performAll ops st = Some (counts, st').
Proof.
  intros Hwf. destruct (performAll_wellFormed ops st Hwf) as (counts & st' & Hrun & _).
  by exists counts, st'.
Qed.

(** *** The blocks in use *)

Lemma ownsBeyond_freshState (pool : MemoryPool S) b1 b2 :
  ownsBeyond (blocks pool) (freshState pool b1 b2).
Proof.
  intros p. destruct (blocks pool !! p) as [c|] eqn:Hp.
  - split; [done|]. by apply isLive_empty.
  - simpl. rewrite Hp. by intros [? ?].
Qed.

Lemma ownsBeyond_perform blocks0 st op st' :
  wellFormed st → ownsBeyond blocks0 st → perform op st = Some (tt, st') →
  ownsBeyond blocks0 st'.
Proof.
  intros Hwf Hown Hrun. destruct op as [cnew|T1 T2|].
  - destruct (perform_add_cases st cnew Hwf)
      as (p & Hnone & [[_ Hrun']|[_ [[Hroom Hrun']|[_ (k & old & Hold & Hrun')]]]]);
      rewrite Hrun in Hrun'; injection Hrun' as ->; intros q; specialize (Hown q).
    + unfold objectAt in *. rewrite released_stored_blocks by done.
      destruct (blocks0 !! q); exact Hown.
    + unfold objectAt in *. simpl.
      destruct (blocks0 !! q) as [c0|];
        rewrite (appended_isLive st p cnew q Hwf Hroom).
      * destruct Hown as [Hc Hnl].
        assert (p ≠ q) by congruence.
        rewrite lookup_insert_ne by done. split; [done|]. intros [?|?]; [done|congruence].
      * intros [?|[_ ?]]%lookup_insert_is_Some; [by right|]. left. by apply Hown.
    + unfold objectAt in *. simpl.
      destruct (blocks0 !! q) as [c0|];
        rewrite (replaced_isLive st p cnew k old q Hwf Hold).
      * destruct Hown as [Hc Hnl].
        assert (p ≠ q) by congruence.
        assert (old ≠ q) by (intros ->; apply Hnl; by exists k).
        rewrite lookup_delete_ne, lookup_insert_ne by done.
        split; [done|]. intros [[_ ?]|?]; [done|congruence].
      * intros [c Hc]. apply lookup_delete_Some in Hc as [Hne Hc].
        apply lookup_insert_Some in Hc as [[-> _]|[_ Hc]]; [by right|].
        left. split; [done|]. apply Hown. by exists c.
  - destruct (update_exact st T1 T2 Hwf)
      as (st'' & rel & Hrun' & _ & _ & _ & Hrel & Hlive & _ & Hgone & Hsame).
    simpl in Hrun. rewrite Hrun in Hrun'. injection Hrun' as <-.
    intros q. specialize (Hown q). destruct (blocks0 !! q) as [c0|].
    + destruct Hown as [Hc Hnl]. split.
      * unfold objectAt. by rewrite Hsame.
      * intros (c & Hq & _)%Hlive. done.
    + intros Hq. destruct (isLive_cases st q) as [Hl|Hnl].
      * destruct (isLive_object st q Hwf Hl) as [c Hc].
        destruct (stale (refreshed T1 T2 c)) eqn:Hs.
        -- rewrite Hgone in Hq; [by destruct Hq|]. apply Hrel. by exists c.
        -- apply Hlive. by exists c.
      * rewrite Hsame in Hq by done. by destruct Hnl; apply Hown.
  - destruct (clear_exact st Hwf)
      as (st'' & rel & Hrun' & _ & Hz & _ & _ & Hgone & Hsame).
    simpl in Hrun. rewrite Hrun in Hrun'. injection Hrun' as <-.
    intros q. specialize (Hown q). destruct (blocks0 !! q) as [c0|].
    + destruct Hown as [Hc Hnl]. split; [|by apply isLive_empty].
      unfold objectAt. by rewrite Hsame.
    + intros Hq. destruct (isLive_cases st q) as [Hl|Hnl].
      * rewrite Hgone in Hq by done. by destruct Hq.
      * rewrite Hsame in Hq by done. by destruct Hnl; apply Hown.
Qed.

(** *** Allocations and releases *)

Lemma balance_perform st op st' :
  wellFormed st → perform op st = Some (tt, st') →
  balance st' = balance st + countAdds [op].
Proof.
  intros Hwf Hrun. unfold balance. destruct op as [cnew|T1 T2|].
  - destruct (perform_add_cases st cnew Hwf)
      as (p & Hnone & [[_ Hrun']|[_ [[Hroom Hrun']|[_ (k & old & Hold & Hrun')]]]]);
      rewrite Hrun in Hrun'; injection Hrun' as ->; simpl; lia.
  - destruct (update_exact st T1 T2 Hwf)
      as (st'' & rel & Hrun' & _ & Hfr & Hnb & _).
    simpl in Hrun. rewrite Hrun in Hrun'. injection Hrun' as <-.
    rewrite Hfr, Hnb, length_app. simpl. lia.
  - destruct (clear_exact st Hwf)
      as (st'' & rel & Hrun' & _ & Hz & Hfr & Hlen & _).
    simpl in Hrun. rewrite Hrun in Hrun'. injection Hrun' as <-.
    rewrite Hfr, Hz, length_app. simpl. lia.
Qed.

Lemma balance_performAll ops : ∀ st counts st',
  wellFormed st → performAll ops st = Some (counts, st') →
  wellFormed st' ∧ balance st' = balance st + countAdds ops.
Proof.
  induction ops as [|op ops IH]; intros st counts st' Hwf Hrun.
  - injection Hrun as _ <-. simpl. split; [done|lia].
  - destruct (perform_wellFormed st op Hwf) as (st1 & Hrun1 & Hwf1).
    simpl in Hrun. rewrite (bind_run _ _ _ _ _ Hrun1) in Hrun.
    rewrite (bind_run _ _ _ _ _ (getNbContacts_run st1)) in Hrun.
    unfold bind at 1 in Hrun.
    destruct (performAll ops st1) as [[rest st2]|] eqn:Hrest; [|done].
    injection Hrun as _ <-.
    destruct (IH st1 rest st2 Hwf1 Hrest) as [Hwf2 Hbal]. split; [done|].
    rewrite Hbal, (balance_perform st op st1 Hwf Hrun1).
    destruct op; simpl; lia.
Qed.

(** *** No two cached contacts at the same place *)

Section Symmetric.
Hypothesis isApproxEqual_sym : ∀ a b : Vector3 S, isApproxEqual a b = isApproxEqual b a.

Lemma distinctAnchors_perform st op st' :
  wellFormed st → distinctAnchors st → perform op st = Some (tt, st') →
  distinctAnchors st'.
Proof.
  intros Hwf Hdist Hrun. destruct op as [cnew|T1 T2|].
  - destruct (perform_add_cases st cnew Hwf)
      as (p & Hnone & [[_ Hrun']|[Hnew [[Hroom Hrun']|[_ (k & old & Hold & Hrun')]]]]);
      rewrite Hrun in Hrun'; injection Hrun' as ->; intros i j ci cj Hi Hj Hij.
    + assert (Hnl : ∀ j, ¬ liveAt (stored st p cnew) j p).
      { intros j' Hj'. apply (unused_notLive st p Hwf Hnone). by exists j'. }
      apply released_cached in Hi, Hj; [|done|done].
      apply stored_cached in Hi, Hj; [|done|done|done|done].
      by apply (Hdist i j).
    + apply appended_cached in Hi as [Hi|[-> ->]], Hj as [Hj|[-> ->]]; try done.
      * by apply (Hdist i j).
      * rewrite isApproxEqual_sym. by apply (Hnew i).
      * by apply (Hnew j).
    + apply replaced_cached in Hi as [[_ Hi]|[-> ->]], Hj as [[_ Hj]|[-> ->]]; try done.
      * by apply (Hdist i j).
      * rewrite isApproxEqual_sym. by apply (Hnew i).
      * by apply (Hnew j).
  - destruct (update_exact st T1 T2 Hwf)
      as (st'' & rel & Hrun' & Hwf' & _ & _ & _ & Hlive & Hobj & _).
    simpl in Hrun. rewrite Hrun in Hrun'. injection Hrun' as <-.
    assert (Hback : ∀ i c pi, liveAt st' i pi → objectAt st' pi c →
              ∃ i0 c0, liveAt st i0 pi ∧ objectAt st pi c0
                       ∧ localPointOnBody1 c = localPointOnBody1 c0).
    { intros i c pi Hpi Hc.
      assert (Hl : isLive st' pi) by by exists i.
      destruct (proj1 (Hlive pi) Hl) as (c0 & [i0 Hi0] & Hc0 & _).
      exists i0, c0. split; [done|]. split; [done|].
      pose proof (Hobj pi c0 Hl Hc0) as Hc'. unfold objectAt in *.
      rewrite Hc in Hc'. by injection Hc' as ->. }
    intros i j ci cj (pi & Hpi & Hci) (pj & Hpj & Hcj) Hij.
    destruct (Hback i ci pi Hpi Hci) as (i0 & ci0 & Hi0 & Hci0 & ->).
    destruct (Hback j cj pj Hpj Hcj) as (j0 & cj0 & Hj0 & Hcj0 & ->).
    apply (Hdist i0 j0); [by exists pi|by exists pj|].
    intros ->. apply Hij.
    assert (pi = pj) as -> by (destruct Hi0 as [_ Hi0], Hj0 as [_ Hj0]; congruence).
    by apply (wellFormed_distinct st' i j pj).
  - destruct (clear_exact st Hwf) as (st'' & rel & Hrun' & _ & Hz & _).
    simpl in Hrun. rewrite Hrun in Hrun'. injection Hrun' as <-.
    intros i j ci cj Hi _ _. apply cachedAt_range in Hi. lia.
Qed.

End Symmetric.

(** *** The life of a cache *)

(** X6.  Whatever sequence of [add], [update] and [clear] a freshly
    constructed cache went through, its destructor returns and leaves
    [nbContacts = 0] and the pool with exactly the blocks in use, and their
    contents, that it had when the cache was constructed: no contact leaks,
    and no block of another owner is touched. *)
Theorem destructor_restores_pool (ops : list (Operation S)) (pool : MemoryPool S)
    (b1 b2 : positive) :
  ∃ counts st1 st2,
    performAll ops (freshState pool b1 b2) = Some (counts, st1)
    ∧ PersistentContactCache_delete st1 = Some (tt, st2)
    ∧ nbContacts (cache st2) = 0
    ∧ blocks (memoryPoolContacts st2) = blocks pool.
Proof.
  pose proof (wellFormed_freshState pool b1 b2) as Hwf.
  destruct (performAll_total ops _ Hwf) as (counts & st1 & Hrun).
  destruct (performAll_invariant (ownsBeyond (blocks pool)) (ownsBeyond_perform (blocks pool))
              ops _ counts st1 Hwf (ownsBeyond_freshState pool b1 b2) Hrun)
    as [Hwf1 Hown].
  destruct (clear_exact st1 Hwf1) as (st2 & rel & Hclear & _ & Hz & _ & _ & Hgone & Hsame).
  exists counts, st1, st2. split; [done|]. split; [done|]. split; [done|].
  apply map_eq. intros p. specialize (Hown p).
  destruct (blocks pool !! p) as [c|] eqn:Hp.
  - destruct Hown as [Hc Hnl]. by rewrite Hsame.
  - destruct (isLive_cases st1 p) as [Hl|Hnl]; [by apply Hgone|].
    rewrite Hsame by done.
    destruct (blocks (memoryPoolContacts st1) !! p) as [c|] eqn:Hc; [|done].
    destruct Hnl. apply Hown. by exists c.
Qed.

(** X7.  After any sequence of operations on a freshly constructed cache,
    the number of blocks given back to the pool since the construction plus
    [nbContacts] is the number of [add] operations: each contact handed to
    [addContact] is either still live or was released, once. *)
Theorem contacts_accounted_for (ops : list (Operation S)) (pool : MemoryPool S)
    (b1 b2 : positive) :
  ∃ counts st',
    performAll ops (freshState pool b1 b2) = Some (counts, st')
    ∧ Z.of_nat (length (freed (memoryPoolContacts st'))) + nbContacts (cache st')
      = Z.of_nat (length (freed pool)) + countAdds ops.
Proof.
  pose proof (wellFormed_freshState pool b1 b2) as Hwf.
  destruct (performAll_total ops _ Hwf) as (counts & st' & Hrun).
  exists counts, st'. split; [done|].
  destruct (balance_performAll ops _ counts st' Hwf Hrun) as [_ Hbal].
  unfold balance in Hbal. simpl in Hbal. lia.
Qed.

(** X8 (M3 of the spec).  When the approximate equality of points is
    symmetric, after any sequence of operations on a freshly constructed
    cache no two live slots point to contacts whose first local anchors are
    approximately equal. *)
Theorem cached_anchors_differ (ops : list (Operation S)) (pool : MemoryPool S)
    (b1 b2 : positive) :
  (∀ a b : Vector3 S, isApproxEqual a b = isApproxEqual b a) →
  ∃ counts st',
    performAll ops (freshState pool b1 b2) = Some (counts, st')
    ∧ ∀ i j ci cj, cachedAt st' i ci → cachedAt st' j cj → i ≠ j →
        isApproxEqual (localPointOnBody1 ci) (localPointOnBody1 cj) = false.
Proof.
  intros Hsym.
  pose proof (wellFormed_freshState pool b1 b2) as Hwf.
  destruct (performAll_total ops _ Hwf) as (counts & st' & Hrun).
  exists counts, st'. split; [done|].
  apply (performAll_invariant distinctAnchors
           (λ st op st', distinctAnchors_perform Hsym st op st')
           ops _ counts st' Hwf); [|done].
  intros i j ci cj Hi _ _. apply cachedAt_range in Hi. simpl in Hi. lia.
Qed.

(** *** update *)

(** X9.  [update] decides the fate of each live contact by the two tests on
    its refreshed object alone: a contact whose refreshed object fails a test
    is in no slot afterwards and its block is back in the pool; any other
    contact is still in a slot, in the same block, which holds the refreshed
    object. *)
Theorem update_keeps_exactly_valid st transform1 transform2 :
  wellFormed st →
  ∃ st', update transform1 transform2 st = Some (tt, st')
    ∧ ∀ i p c0, liveAt st i p → objectAt st p c0 →
        if stale (refreshed transform1 transform2 c0)
        then (∀ j, ¬ liveAt st' j p)
             ∧ blocks (memoryPoolContacts st') !! p = None
             ∧ p ∈ freed (memoryPoolContacts st')
        else (∃ j, liveAt st' j p)
             ∧ objectAt st' p (refreshed transform1 transform2 c0).
Proof.
  intros Hwf.
  destruct (update_exact st transform1 transform2 Hwf)
    as (st' & rel & Hrun & _ & Hfr & _ & Hrel & Hlive & Hobj & Hgone & _).
  exists st'. split; [done|]. intros i p c0 Hp Hc0.
  assert (Hl : isLive st p) by by exists i.
  destruct (stale (refreshed transform1 transform2 c0)) eqn:Hs.
  - assert (Hin : p ∈ rel) by (apply Hrel; by exists c0).
    split; [|split; [by apply Hgone|rewrite Hfr; apply elem_of_app; by left]].
    intros j Hj.
    destruct (proj1 (Hlive p) (ex_intro _ j Hj)) as (c1 & _ & Hc1 & Hs1).
    unfold objectAt in *. congruence.
  - assert (Hl' : isLive st' p) by (apply Hlive; by exists c0).
    split; [exact Hl'|]. by apply Hobj.
Qed.

(** X10.  [update] is idempotent: a second [update] with the same two
    transforms changes nothing, neither a slot nor an object nor the pool. *)
Theorem update_idempotent st transform1 transform2 :
  wellFormed st →
  ∃ st', update transform1 transform2 st = Some (tt, st')
    ∧ update transform1 transform2 st' = Some (tt, st').
Proof.
  intros Hwf.
  destruct (update_exact st transform1 transform2 Hwf)
    as (st' & rel & Hrun & Hwf' & _ & _ & _ & Hlive & Hobj & _).
  exists st'. split; [done|].
  apply update_fixpoint; [done|].
  intros i c (p & Hp & Hc).
  assert (Hl : isLive st' p) by by exists i.
  destruct (proj1 (Hlive p) Hl) as (c0 & _ & Hc0 & Hs).
  pose proof (Hobj p c0 Hl Hc0) as Hc'. unfold objectAt in *.
  rewrite Hc in Hc'. injection Hc' as ->.
  split; [apply refreshed_refreshed|done].
Qed.

(** *** clear *)

(** X11.  [clear] is idempotent, and on a cleared cache [update] does
    nothing either. *)
Theorem clear_idempotent st transform1 transform2 :
  wellFormed st →
  ∃ st', clear st = Some (tt, st')
    ∧ clear st' = Some (tt, st')
    ∧ update transform1 transform2 st' = Some (tt, st').
Proof.
  intros Hwf.
  destruct (clear_exact st Hwf) as (st' & rel & Hrun & Hwf' & Hz & _).
  exists st'. split; [done|]. split; [|by apply update_empty].
  unfold clear. step (getNbContacts_run st'). rewrite Hz. simpl.
  unfold bind, setNbContacts, ret. simpl.
  destruct st' as [pool' [bd1 bd2 cs nb]]. simpl in *. by subst.
Qed.

(** *** The choice of the slot to evict *)

Lemma deepestLoop_range st n : ∀ i maxD idx r,
  -1 ≤ idx < i → i + Z.of_nat n = nbContacts (cache st) →
  deepestLoop n i maxD idx st = Some (r, st) →
  -1 ≤ r < nbContacts (cache st).
Proof.
  induction n as [|n IH]; intros i maxD idx r Hidx Hn Hrun.
  - injection Hrun as <-. lia.
  - simpl in Hrun. unfold bind at 1 in Hrun.
    destruct (penetrationDepthOf i st) as [[d st1]|] eqn:Hd; [|done].
    assert (st1 = st) as ->.
    { unfold penetrationDepthOf, bind, getSlot, deref, ret in Hd.
      repeat (case_match; simplify_eq); done. }
    destruct (dltb maxD d); eapply (IH (i + 1)); try exact Hrun; lia.
Qed.

(** X12.  Whatever the arithmetic (IEEE doubles and NaN included), in a full
    cache the two selection functions return and change nothing:
    [getIndexOfDeepestPenetration] yields -1 or an index of the array, and
    [getIndexToRemove] an index of the array. *)
Theorem selection_in_range st newContact cnew :
  wellFormed st → nbContacts (cache st) = MAX_CONTACTS_IN_CACHE →
  objectAt st newContact cnew →
  ∃ r k,
    getIndexOfDeepestPenetration newContact st = Some (r, st)
    ∧ -1 ≤ r ≤ 3
    ∧ getIndexToRemove r (localPointOnBody1 cnew) st = Some (k, st)
    ∧ 0 ≤ k ≤ 3.
Proof.
  intros Hwf Hfull Hnew.
  destruct (getIndexOfDeepestPenetration_total st newContact cnew Hwf Hfull Hnew)
    as [r Hr].
  destruct (getIndexToRemove_total st r (localPointOnBody1 cnew) Hwf Hfull)
    as (k & Hk & Hrange).
  exists r, k. split; [done|]. split; [|done].
  pose proof Hr as Hr'. unfold getIndexOfDeepestPenetration in Hr'.
  rewrite (bind_run _ _ _ _ _ (getNbContacts_run st)) in Hr'.
  rewrite (bind_run _ _ _ _ _ (assert_run st _ (proj2 (Z.eqb_eq _ _) Hfull))) in Hr'.
  rewrite (bind_run _ _ _ _ _ (deref_run _ _ _ Hnew)) in Hr'.
  apply deepestLoop_range in Hr'; [|lia|].
  - unfold MAX_CONTACTS_IN_CACHE in Hfull. lia.
  - unfold MAX_CONTACTS_IN_CACHE in Hfull. lia.
Qed.

(** *** The friction basis *)

(** X14.  [computeFrictionVectors] starts from an empty basis: whatever the
    contact held, it holds two friction vectors afterwards, and a second call
    changes nothing. *)
Theorem computeFrictionVectors_idempotent (c : Contact S) :
  length (frictionVectors (computeFrictionVectors c)) = 2%nat
  ∧ computeFrictionVectors (computeFrictionVectors c) = computeFrictionVectors c.
Proof. split; reflexivity. Qed.

Section ExactEviction.
Context {X : ExactScalar S}.

Add Ring scalar_ring : d_ring.

Lemma Vsub_Vadd (a b t : Vector3 S) : Vsub (Vadd a t) (Vadd b t) = Vsub a b.
Proof. destruct a, b, t. unfold Vsub, Vadd. simpl. f_equal; ring. Qed.

(** X13.  In exact arithmetic the choice of [getIndexToRemove] depends on
    the positions of the points relative to each other only: moving the new
    point and the four cached first local anchors by the same vector [t]
    gives the same index. *)
Theorem getIndexToRemove_translation st st' r newPoint (t : Vector3 S)
    c0 c1 c2 c3 c0' c1' c2' c3' :
  nbContacts (cache st) = MAX_CONTACTS_IN_CACHE →
  nbContacts (cache st') = MAX_CONTACTS_IN_CACHE →
  cachedAt st 0 c0 → cachedAt st 1 c1 → cachedAt st 2 c2 → cachedAt st 3 c3 →
  cachedAt st' 0 c0' → cachedAt st' 1 c1' → cachedAt st' 2 c2' → cachedAt st' 3 c3' →
  localPointOnBody1 c0' = Vadd (localPointOnBody1 c0) t →
  localPointOnBody1 c1' = Vadd (localPointOnBody1 c1) t →
  localPointOnBody1 c2' = Vadd (localPointOnBody1 c2) t →
  localPointOnBody1 c3' = Vadd (localPointOnBody1 c3) t →
  ∃ k, getIndexToRemove r newPoint st = Some (k, st)
    ∧ getIndexToRemove r (Vadd newPoint t) st' = Some (k, st').
Proof.
  intros Hfull Hfull' H0 H1 H2 H3 H0' H1' H2' H3' E0 E1 E2 E3.
  eexists. split; [by apply (getIndexToRemove_run st r newPoint c0 c1 c2 c3)|].
  rewrite (getIndexToRemove_run st' r (Vadd newPoint t) c0' c1' c2' c3') by done.
  rewrite E0, E1, E2, E3. unfold indexToRemoveOf, areaOr.
  by rewrite !Vsub_Vadd.
Qed.

End ExactEviction.

End Histories.


(** ** Integers are an instance of the assumptions on scalars *)

Lemma Z_OrderedScalar : OrderedScalar Z_Scalar.
Proof. split; simpl; intros; lia. Qed.

Lemma Z_ExactScalar : ExactScalar Z_Scalar.
Proof. split; simpl. constructor; intros; lia. Qed.

(** ** The claims at concrete inputs *)

Lemma wellFormed_collinearZ : wellFormed collinearZ.
Proof. apply (bool_decide_unpack _). vm_compute. reflexivity. Qed.

Lemma wellFormed_restingZ : wellFormed restingZ.
Proof. apply (bool_decide_unpack _). vm_compute. reflexivity. Qed.

Lemma wellFormed_duplicateZ : wellFormed duplicateZ.
Proof. apply (bool_decide_unpack _). vm_compute. reflexivity. Qed.

Lemma object5_collinearZ : objectAt collinearZ 5 (contactAt (Zvec 4 0 0) 2).
Proof. vm_compute. reflexivity. Qed.

Lemma notLive5_collinearZ : ∀ i, ¬ liveAt collinearZ i 5.
Proof. apply notLive_intro. apply (bool_decide_unpack _). vm_compute. reflexivity. Qed.

Lemma distinct5_collinearZ :
  ∀ i c, cachedAt collinearZ i c →
    isApproxEqual (localPointOnBody1 (contactAt (Zvec 4 0 0) 2)) (localPointOnBody1 c) = false.
Proof. apply differsFrom_intro. apply (bool_decide_unpack _). vm_compute. reflexivity. Qed.

(** C1, at the failing input.  The cache holds four contacts on a line, the
    one in slot 0 with the greatest depth (5), and the contact added lies on
    the same line with depth 2, away from all of them; this state is reached
    from a fresh cache by four [add] and the construction of the fifth
    contact.  [getIndexOfDeepestPenetration] returns 0, the slot to protect;
    the four areas are all zero, [getIndexToRemove] returns 0 as well, and
    [addContact] deletes the contact of slot 0 (block 1) and writes the new
    contact (block 5) in its place: the protected contact is the one evicted.
    This is computed on IEEE doubles. *)
Theorem addContact_evicts_protected_contact :
  (∃ st, performAll collinearAdds (freshState (mkMemoryPool ∅ []) 1 2)
         = Some ([1; 2; 3; 4], st)
       ∧ newObject (contactAt (Fvec 4 0 0) 2%float) st = Some (5%positive, collinearF))
  ∧ wellFormed collinearF
  ∧ Forall (differsFrom collinearF (Fvec 4 0 0)) (liveSlots collinearF)
  ∧ getIndexOfDeepestPenetration 5 collinearF = Some (0, collinearF)
  ∧ getIndexToRemove 0 (Fvec 4 0 0) collinearF = Some (0, collinearF)
  ∧ addContact 5 collinearF = Some (tt, replaced collinearF 0 1 5).
Proof.
  split; [eexists; split; vm_compute; reflexivity|].
  split; [apply (bool_decide_unpack _); vm_compute; reflexivity|].
  split; [apply (bool_decide_unpack _); vm_compute; reflexivity|].
  repeat split; vm_compute; reflexivity.
Qed.

(** C2, as stated, fails: of the scores 1, 1, 0, 0 the first two are tied for
    the maximum and [getMaxArea] returns index 0, not the higher index 1
    (computed on IEEE doubles). *)
Lemma getMaxArea_tie_counterexample :
  ¬ @prefersHigherIndex float_Scalar 1%float 1%float 0%float 0%float.
Proof.
  intros H. unfold prefersHigherIndex in H.
  assert (Hk : @getMaxArea float_Scalar 1%float 1%float 0%float 0%float = 0)
    by (vm_compute; reflexivity).
  rewrite Hk in H. specialize (H 1 ltac:(lia)). vm_compute in H. discriminate H.
Qed.

Lemma getMaxArea_spec_witness :
  OrderedScalar Z_Scalar
  ∧ (let k := @getMaxArea Z_Scalar 2 5 5 1 in
     0 ≤ k ≤ 3
     ∧ (∀ j, 0 ≤ j ≤ 3 →
          dleb (@areaAt Z_Scalar 2 5 5 1 j) (@areaAt Z_Scalar 2 5 5 1 k) = true)
     ∧ (∀ j, 0 ≤ j < k →
          dltb (@areaAt Z_Scalar 2 5 5 1 j) (@areaAt Z_Scalar 2 5 5 1 k) = true)).
Proof.
  split; [exact Z_OrderedScalar|].
  exact (@getMaxArea_spec Z_Scalar Z_OrderedScalar 2 5 5 1).
Defined.

(** C3, as stated, fails on IEEE doubles.  A contact with normal [(0, 1, 0)]
    and local anchors [(0, 2^1023, 0)] and [(0, 0, 0)] is added to a fresh
    cache; [update] then moves the first body by [(0, 2^1023, 0)] and leaves
    the second one in place.  The first world anchor overflows to
    [(0, +inf, 0)], the depth is [+inf], which is not [<= 0], and the squared
    drift is NaN, which is not [>] the squared threshold: the contact stays in
    slot 0, and its squared drift is not at most the squared threshold. *)
Lemma update_keeps_valid_contacts_counterexample :
  ∃ st st' c,
    performAll farAdds (freshState (mkMemoryPool ∅ []) 1 2) = Some ([1], st)
    ∧ wellFormed st
    ∧ update farMove Transform_identity st = Some (tt, st')
    ∧ nbContacts (cache st') = 1
    ∧ cachedAt st' 0 c
    ∧ penetrationDepth c = infinity
    ∧ dleb (lengthSquare
              (Vsub (worldPointOnBody2 c)
                    (Vsub (worldPointOnBody1 c)
                          (Vscale (normal c) (penetrationDepth c)))))
           (dmul PERSISTENT_CONTACT_DIST_THRESHOLD PERSISTENT_CONTACT_DIST_THRESHOLD)
      = false.
Proof.
  eexists _, _, _.
  split; [vm_compute; reflexivity|].
  split; [apply (bool_decide_unpack _); vm_compute; reflexivity|].
  split; [vm_compute; reflexivity|].
  split; [reflexivity|].
  split; [apply (cachedAt_intro _ 0 1); [simpl; lia|..]; vm_compute; reflexivity|].
  split; vm_compute; reflexivity.
Qed.

Lemma update_keeps_valid_contacts_witness :
  wellFormed restingF
  ∧ ∃ st', update Transform_identity Transform_identity restingF = Some (tt, st')
      ∧ ∀ i, 0 ≤ i < nbContacts (cache st') →
          ∃ c, cachedAt st' i c
            ∧ dleb (penetrationDepth c) d0 = false
            ∧ dltb (dmul PERSISTENT_CONTACT_DIST_THRESHOLD
                         PERSISTENT_CONTACT_DIST_THRESHOLD)
                   (lengthSquare
                      (Vsub (worldPointOnBody2 c)
                            (Vsub (worldPointOnBody1 c)
                                  (Vscale (normal c) (penetrationDepth c)))))
              = false
            ∧ (dleb (penetrationDepth c) d0 = true ∨ dleb d0 (penetrationDepth c) = true →
               dleb d0 (penetrationDepth c) = true)
            ∧ (dltb (dmul PERSISTENT_CONTACT_DIST_THRESHOLD
                          PERSISTENT_CONTACT_DIST_THRESHOLD)
                    (lengthSquare
                       (Vsub (worldPointOnBody2 c)
                             (Vsub (worldPointOnBody1 c)
                                   (Vscale (normal c) (penetrationDepth c)))))
                = true
               ∨ dleb (lengthSquare
                         (Vsub (worldPointOnBody2 c)
                               (Vsub (worldPointOnBody1 c)
                                     (Vscale (normal c) (penetrationDepth c)))))
                      (dmul PERSISTENT_CONTACT_DIST_THRESHOLD
                            PERSISTENT_CONTACT_DIST_THRESHOLD)
                 = true →
               dleb (lengthSquare
                       (Vsub (worldPointOnBody2 c)
                             (Vsub (worldPointOnBody1 c)
                                   (Vscale (normal c) (penetrationDepth c)))))
                    (dmul PERSISTENT_CONTACT_DIST_THRESHOLD
                          PERSISTENT_CONTACT_DIST_THRESHOLD)
               = true).
Proof.
  assert (Hwf : wellFormed restingF)
    by (apply (bool_decide_unpack _); vm_compute; reflexivity).
  split; [exact Hwf|].
  exact (update_keeps_valid_contacts restingF Transform_identity Transform_identity Hwf).
Defined.

Lemma addContact_duplicate_witness :
  wellFormed duplicateZ
  ∧ objectAt duplicateZ 2 (contactAt (Zvec 0 0 0) 2)
  ∧ (∀ i, ¬ liveAt duplicateZ i 2)
  ∧ (∃ i c, cachedAt duplicateZ i c
       ∧ isApproxEqual (localPointOnBody1 (contactAt (Zvec 0 0 0) 2))
                       (localPointOnBody1 c) = true)
  ∧ ∃ st', addContact 2 duplicateZ = Some (tt, st')
      ∧ freed (memoryPoolContacts st') = 2%positive :: freed (memoryPoolContacts duplicateZ)
      ∧ blocks (memoryPoolContacts st')
        = delete 2%positive (blocks (memoryPoolContacts duplicateZ))
      ∧ cache st' = cache duplicateZ
      ∧ ∀ i c, cachedAt st' i c ↔ cachedAt duplicateZ i c.
Proof.
  assert (Hobj : objectAt duplicateZ 2 (contactAt (Zvec 0 0 0) 2))
    by (vm_compute; reflexivity).
  assert (Hfresh : ∀ i, ¬ liveAt duplicateZ i 2).
  { apply notLive_intro. apply (bool_decide_unpack _). vm_compute. reflexivity. }
  assert (Hdup : ∃ i c, cachedAt duplicateZ i c
            ∧ isApproxEqual (localPointOnBody1 (contactAt (Zvec 0 0 0) 2))
                            (localPointOnBody1 c) = true).
  { exists 0, (contactAt (Zvec 0 0 0) 1). split; [|vm_compute; reflexivity].
    apply (cachedAt_intro duplicateZ 0 1); [simpl; lia|..]; vm_compute; reflexivity. }
  split; [exact wellFormed_duplicateZ|]. split; [exact Hobj|].
  split; [exact Hfresh|]. split; [exact Hdup|].
  exact (addContact_duplicate duplicateZ 2 _ wellFormed_duplicateZ Hobj Hfresh Hdup).
Defined.


Lemma update_refreshes_contacts_witness :
  wellFormed restingZ
  ∧ ∃ st', update Transform_identity Transform_identity restingZ = Some (tt, st')
      ∧ ∀ i, 0 ≤ i < nbContacts (cache st') →
          ∃ c, cachedAt st' i c
            ∧ worldPointOnBody1 c = Transform_apply Transform_identity (localPointOnBody1 c)
            ∧ worldPointOnBody2 c = Transform_apply Transform_identity (localPointOnBody2 c)
            ∧ penetrationDepth c
              = dot (Vsub (worldPointOnBody1 c) (worldPointOnBody2 c)) (normal c).
Proof.
  split; [exact wellFormed_restingZ|].
  exact (update_refreshes_contacts restingZ Transform_identity Transform_identity
           wellFormed_restingZ).
Defined.

Lemma computeFrictionVectors_frame_witness :
  ExactScalar Z_Scalar
  ∧ lengthSquare (normal (contactAt (Zvec 0 0 0) 1)) = d1
  ∧ lengthSquare (getOneOrthogonalVector (normal (contactAt (Zvec 0 0 0) 1))) = d1
  ∧ dot (normal (contactAt (Zvec 0 0 0) 1))
        (getOneOrthogonalVector (normal (contactAt (Zvec 0 0 0) 1))) = d0
  ∧ ∃ t1 t2,
      frictionVectors (computeFrictionVectors (contactAt (Zvec 0 0 0) 1)) = [t1; t2]
      ∧ normal (computeFrictionVectors (contactAt (Zvec 0 0 0) 1))
        = normal (contactAt (Zvec 0 0 0) 1)
      ∧ cross t1 t2 = normal (contactAt (Zvec 0 0 0) 1)
      ∧ lengthSquare t1 = d1 ∧ lengthSquare t2 = d1
      ∧ dot t1 t2 = d0
      ∧ dot (normal (contactAt (Zvec 0 0 0) 1)) t1 = d0
      ∧ dot (normal (contactAt (Zvec 0 0 0) 1)) t2 = d0.
Proof.
  split; [exact Z_ExactScalar|].
  split; [reflexivity|]. split; [reflexivity|]. split; [reflexivity|].
  exact (@computeFrictionVectors_frame Z_Scalar Z_Externals Z_ExactScalar
           (contactAt (Zvec 0 0 0) 1) eq_refl eq_refl eq_refl).
Defined.

Lemma addContact_full_keeps_slots_witness :
  wellFormed collinearZ
  ∧ objectAt collinearZ 5 (contactAt (Zvec 4 0 0) 2)
  ∧ (∀ i, ¬ liveAt collinearZ i 5)
  ∧ (∀ i c, cachedAt collinearZ i c →
       isApproxEqual (localPointOnBody1 (contactAt (Zvec 4 0 0) 2))
                     (localPointOnBody1 c) = false)
  ∧ nbContacts (cache collinearZ) = MAX_CONTACTS_IN_CACHE
  ∧ ∃ r k old st',
      getIndexOfDeepestPenetration 5 collinearZ = Some (r, collinearZ)
      ∧ getIndexToRemove r (localPointOnBody1 (contactAt (Zvec 4 0 0) 2)) collinearZ
        = Some (k, collinearZ)
      ∧ addContact 5 collinearZ = Some (tt, st')
      ∧ 0 ≤ k < 4 ∧ liveAt collinearZ k old
      ∧ nbContacts (cache st') = 4
      ∧ liveAt st' k 5 ∧ objectAt st' 5 (contactAt (Zvec 4 0 0) 2)
      ∧ freed (memoryPoolContacts st') = old :: freed (memoryPoolContacts collinearZ)
      ∧ (∀ i p c, i ≠ k → liveAt collinearZ i p → objectAt collinearZ p c →
           liveAt st' i p ∧ objectAt st' p c)
      ∧ (k < 3 → ∀ p c, liveAt collinearZ 3 p → objectAt collinearZ p c →
           liveAt st' 3 p ∧ objectAt st' p c).
Proof.
  split; [exact wellFormed_collinearZ|]. split; [exact object5_collinearZ|].
  split; [exact notLive5_collinearZ|]. split; [exact distinct5_collinearZ|].
  split; [reflexivity|].
  exact (addContact_full_keeps_slots collinearZ 5 _ wellFormed_collinearZ
           object5_collinearZ notLive5_collinearZ distinct5_collinearZ eq_refl).
Defined.

Lemma update_frame_witness :
  wellFormed restingZ
  ∧ ∃ st', update Transform_identity Transform_identity restingZ = Some (tt, st')
      ∧ (nbContacts (cache restingZ) = 0 → st' = restingZ)
      ∧ nbContacts (cache st') ≤ nbContacts (cache restingZ)
      ∧ ∃ rel, freed (memoryPoolContacts st') = rel ++ freed (memoryPoolContacts restingZ)
          ∧ ∀ p, p ∈ rel → ∃ i, liveAt restingZ i p.
Proof.
  split; [exact wellFormed_restingZ|].
  exact (update_frame restingZ Transform_identity Transform_identity wellFormed_restingZ).
Defined.

(** ** The further properties at concrete inputs *)

Lemma wellFormed_restingF : wellFormed restingF.
Proof. apply (bool_decide_unpack _). vm_compute. reflexivity. Qed.

Lemma wellFormed_roomZ : wellFormed roomZ.
Proof. apply (bool_decide_unpack _). vm_compute. reflexivity. Qed.

Lemma update_survivors_pass_tests_witness :
  wellFormed restingF
  ∧ ∃ st', update Transform_identity Transform_identity restingF = Some (tt, st')
      ∧ ∀ i, 0 ≤ i < nbContacts (cache st') →
          ∃ c, cachedAt st' i c
            ∧ dleb (penetrationDepth c) d0 = false
            ∧ dltb (dmul PERSISTENT_CONTACT_DIST_THRESHOLD
                         PERSISTENT_CONTACT_DIST_THRESHOLD)
                   (lengthSquare
                      (Vsub (worldPointOnBody2 c)
                            (Vsub (worldPointOnBody1 c)
                                  (Vscale (normal c) (penetrationDepth c)))))
              = false.
Proof.
  split; [exact wellFormed_restingF|].
  exact (update_survivors_pass_tests restingF Transform_identity Transform_identity
           wellFormed_restingF).
Defined.

Lemma clear_releases_all_witness :
  wellFormed collinearZ
  ∧ ∃ st' rel, clear collinearZ = Some (tt, st')
      ∧ nbContacts (cache st') = 0
      ∧ freed (memoryPoolContacts st') = rel ++ freed (memoryPoolContacts collinearZ)
      ∧ Z.of_nat (length rel) = nbContacts (cache collinearZ)
      ∧ ∀ p, p ∈ rel ↔ ∃ i, liveAt collinearZ i p.
Proof.
  split; [exact wellFormed_collinearZ|].
  exact (clear_releases_all collinearZ wellFormed_collinearZ).
Defined.

Lemma addContact_appends_witness :
  wellFormed roomZ
  ∧ objectAt roomZ 2 (contactAt (Zvec 1 0 0) 1)
  ∧ (∀ i, ¬ liveAt roomZ i 2)
  ∧ (∀ i c, cachedAt roomZ i c →
       isApproxEqual (localPointOnBody1 (contactAt (Zvec 1 0 0) 1))
                     (localPointOnBody1 c) = false)
  ∧ nbContacts (cache roomZ) < MAX_CONTACTS_IN_CACHE
  ∧ ∃ st', addContact 2 roomZ = Some (tt, st')
      ∧ nbContacts (cache st') = nbContacts (cache roomZ) + 1
      ∧ liveAt st' (nbContacts (cache roomZ)) 2
      ∧ memoryPoolContacts st' = memoryPoolContacts roomZ
      ∧ ∀ i p, liveAt roomZ i p → liveAt st' i p.
Proof.
  assert (Hobj : objectAt roomZ 2 (contactAt (Zvec 1 0 0) 1))
    by (vm_compute; reflexivity).
  assert (Hfresh : ∀ i, ¬ liveAt roomZ i 2).
  { apply notLive_intro. apply (bool_decide_unpack _). vm_compute. reflexivity. }
  assert (Hnone : ∀ i c, cachedAt roomZ i c →
            isApproxEqual (localPointOnBody1 (contactAt (Zvec 1 0 0) 1))
                          (localPointOnBody1 c) = false).
  { apply differsFrom_intro. apply (bool_decide_unpack _). vm_compute. reflexivity. }
  assert (Hroom : nbContacts (cache roomZ) < MAX_CONTACTS_IN_CACHE) by reflexivity.
  split; [exact wellFormed_roomZ|]. split; [exact Hobj|]. split; [exact Hfresh|].
  split; [exact Hnone|]. split; [exact Hroom|].
  exact (addContact_appends roomZ 2 _ wellFormed_roomZ Hobj Hfresh Hnone Hroom).
Defined.

Lemma removeContact_swap_remove_witness :
  wellFormed collinearZ ∧ liveAt collinearZ 1 2
  ∧ ∃ st', removeContact 1 collinearZ = Some (tt, st')
      ∧ nbContacts (cache st') = nbContacts (cache collinearZ) - 1
      ∧ blocks (memoryPoolContacts st')
        = delete 2%positive (blocks (memoryPoolContacts collinearZ))
      ∧ freed (memoryPoolContacts st') = 2%positive :: freed (memoryPoolContacts collinearZ)
      ∧ (1 = nbContacts (cache collinearZ) - 1 →
         contacts (cache st') = contacts (cache collinearZ))
      ∧ (∀ j q, liveAt st' j q ↔
           j < nbContacts (cache collinearZ) - 1
           ∧ (j ≠ 1 ∧ liveAt collinearZ j q
              ∨ j = 1 ∧ liveAt collinearZ (nbContacts (cache collinearZ) - 1) q)).
Proof.
  assert (Hlive : liveAt collinearZ 1 2) by (split; [simpl; lia|reflexivity]).
  split; [exact wellFormed_collinearZ|]. split; [exact Hlive|].
  exact (removeContact_swap_remove collinearZ 1 2 wellFormed_collinearZ Hlive).
Defined.

Lemma getIndexToRemove_spares_protected_witness :
  OrderedScalar Z_Scalar
  ∧ nbContacts (cache squareZ) = MAX_CONTACTS_IN_CACHE
  ∧ cachedAt squareZ 0 (contactAt (Zvec 1 0 1) 5)
  ∧ cachedAt squareZ 1 (contactAt (Zvec 1 0 (-1)) 1)
  ∧ cachedAt squareZ 2 (contactAt (Zvec (-1) 0 1) 1)
  ∧ cachedAt squareZ 3 (contactAt (Zvec (-1) 0 (-1)) 1)
  ∧ getIndexToRemove 0 (Zvec 0 0 0) squareZ = Some (3, squareZ)
  ∧ (∃ j, 0 ≤ j ≤ 3
       ∧ dltb d0 (candidateArea 0 (Zvec 0 0 0)
                    (localPointOnBody1 (contactAt (Zvec 1 0 1) 5))
                    (localPointOnBody1 (contactAt (Zvec 1 0 (-1)) 1))
                    (localPointOnBody1 (contactAt (Zvec (-1) 0 1) 1))
                    (localPointOnBody1 (contactAt (Zvec (-1) 0 (-1)) 1)) j) = true)
  ∧ 3 ≠ 0.
Proof.
  assert (H0 : cachedAt squareZ 0 (contactAt (Zvec 1 0 1) 5)).
  { apply (cachedAt_intro squareZ 0 1); [simpl; lia|..]; vm_compute; reflexivity. }
  assert (H1 : cachedAt squareZ 1 (contactAt (Zvec 1 0 (-1)) 1)).
  { apply (cachedAt_intro squareZ 1 2); [simpl; lia|..]; vm_compute; reflexivity. }
  assert (H2 : cachedAt squareZ 2 (contactAt (Zvec (-1) 0 1) 1)).
  { apply (cachedAt_intro squareZ 2 3); [simpl; lia|..]; vm_compute; reflexivity. }
  assert (H3 : cachedAt squareZ 3 (contactAt (Zvec (-1) 0 (-1)) 1)).
  { apply (cachedAt_intro squareZ 3 4); [simpl; lia|..]; vm_compute; reflexivity. }
  assert (Hrun : getIndexToRemove 0 (Zvec 0 0 0) squareZ = Some (3, squareZ))
    by (vm_compute; reflexivity).
  assert (Hpos : ∃ j, 0 ≤ j ≤ 3
            ∧ dltb d0 (candidateArea 0 (Zvec 0 0 0)
                         (localPointOnBody1 (contactAt (Zvec 1 0 1) 5))
                         (localPointOnBody1 (contactAt (Zvec 1 0 (-1)) 1))
                         (localPointOnBody1 (contactAt (Zvec (-1) 0 1) 1))
                         (localPointOnBody1 (contactAt (Zvec (-1) 0 (-1)) 1)) j) = true).
  { exists 3. split; [lia|]. vm_compute. reflexivity. }
  split; [exact Z_OrderedScalar|]. split; [reflexivity|].
  split; [exact H0|]. split; [exact H1|]. split; [exact H2|]. split; [exact H3|].
  split; [exact Hrun|]. split; [exact Hpos|].
  exact (@getIndexToRemove_spares_protected Z_Scalar Z_OrderedScalar
           squareZ 0 (Zvec 0 0 0) 3 _ _ _ _ eq_refl H0 H1 H2 H3 Hrun Hpos).
Defined.

Lemma Z_isApproxEqual_sym (a b : Vector3 Z_Scalar) : isApproxEqual a b = isApproxEqual b a.
Proof.
  assert (Hsym : ∀ x y : Z, @approxEqual Z_Scalar x y 1 = @approxEqual Z_Scalar y x 1).
  { intros x y. unfold approxEqual. simpl.
    destruct (Z.ltb_spec (x - y) 1), (Z.ltb_spec (0 - 1) (x - y)),
             (Z.ltb_spec (y - x) 1), (Z.ltb_spec (0 - 1) (y - x)); simpl; lia. }
  destruct a as [a1 a2 a3], b as [b1 b2 b3]. simpl. unfold Vector3_approxEqual. simpl.
  by rewrite (Hsym a1 b1), (Hsym a2 b2), (Hsym a3 b3).
Qed.

Lemma wellFormed_squareZ : wellFormed squareZ.
Proof. apply (bool_decide_unpack _). vm_compute. reflexivity. Qed.

Lemma cached_anchors_differ_witness :
  (∀ a b : Vector3 Z_Scalar, isApproxEqual a b = isApproxEqual b a)
  ∧ ∃ counts st',
      performAll repeatedAdds (freshState (mkMemoryPool ∅ []) 1 2) = Some (counts, st')
      ∧ ∀ i j ci cj, cachedAt st' i ci → cachedAt st' j cj → i ≠ j →
          isApproxEqual (localPointOnBody1 ci) (localPointOnBody1 cj) = false.
Proof.
  split; [exact Z_isApproxEqual_sym|].
  exact (cached_anchors_differ repeatedAdds (mkMemoryPool ∅ []) 1 2 Z_isApproxEqual_sym).
Defined.

Lemma update_keeps_exactly_valid_witness :
  wellFormed restingF
  ∧ ∃ st', update Transform_identity Transform_identity restingF = Some (tt, st')
      ∧ ∀ i p c0, liveAt restingF i p → objectAt restingF p c0 →
          if stale (refreshed Transform_identity Transform_identity c0)
          then (∀ j, ¬ liveAt st' j p)
               ∧ blocks (memoryPoolContacts st') !! p = None
               ∧ p ∈ freed (memoryPoolContacts st')
          else (∃ j, liveAt st' j p)
               ∧ objectAt st' p (refreshed Transform_identity Transform_identity c0).
Proof.
  split; [exact wellFormed_restingF|].
  exact (update_keeps_exactly_valid restingF Transform_identity Transform_identity
           wellFormed_restingF).
Defined.

Lemma update_idempotent_witness :
  wellFormed restingZ
  ∧ ∃ st', update Transform_identity Transform_identity restingZ = Some (tt, st')
      ∧ update Transform_identity Transform_identity st' = Some (tt, st').
Proof.
  split; [exact wellFormed_restingZ|].
  exact (update_idempotent restingZ Transform_identity Transform_identity
           wellFormed_restingZ).
Defined.

Lemma clear_idempotent_witness :
  wellFormed squareZ
  ∧ ∃ st', clear squareZ = Some (tt, st')
      ∧ clear st' = Some (tt, st')
      ∧ update Transform_identity Transform_identity st' = Some (tt, st').
Proof.
  split; [exact wellFormed_squareZ|].
  exact (clear_idempotent squareZ Transform_identity Transform_identity wellFormed_squareZ).
Defined.

Lemma selection_in_range_witness :
  wellFormed collinearF
  ∧ nbContacts (cache collinearF) = MAX_CONTACTS_IN_CACHE
  ∧ objectAt collinearF 5 (contactAt (Fvec 4 0 0) 2%float)
  ∧ ∃ r k,
      getIndexOfDeepestPenetration 5 collinearF = Some (r, collinearF)
      ∧ -1 ≤ r ≤ 3
      ∧ getIndexToRemove r (localPointOnBody1 (contactAt (Fvec 4 0 0) 2%float)) collinearF
        = Some (k, collinearF)
      ∧ 0 ≤ k ≤ 3.
Proof.
  assert (Hwf : wellFormed collinearF)
    by (apply (bool_decide_unpack _); vm_compute; reflexivity).
  assert (Hobj : objectAt collinearF 5 (contactAt (Fvec 4 0 0) 2%float))
    by (vm_compute; reflexivity).
  split; [exact Hwf|]. split; [reflexivity|]. split; [exact Hobj|].
  exact (selection_in_range collinearF 5 _ Hwf eq_refl Hobj).
Defined.

Lemma getIndexToRemove_translation_witness :
  ExactScalar Z_Scalar
  ∧ nbContacts (cache squareZ) = MAX_CONTACTS_IN_CACHE
  ∧ nbContacts (cache squareMovedZ) = MAX_CONTACTS_IN_CACHE
  ∧ cachedAt squareZ 0 (contactAt (Zvec 1 0 1) 5)
  ∧ cachedAt squareZ 1 (contactAt (Zvec 1 0 (-1)) 1)
  ∧ cachedAt squareZ 2 (contactAt (Zvec (-1) 0 1) 1)
  ∧ cachedAt squareZ 3 (contactAt (Zvec (-1) 0 (-1)) 1)
  ∧ cachedAt squareMovedZ 0 (contactAt (Zvec 11 0 6) 5)
  ∧ cachedAt squareMovedZ 1 (contactAt (Zvec 11 0 4) 1)
  ∧ cachedAt squareMovedZ 2 (contactAt (Zvec 9 0 6) 1)
  ∧ cachedAt squareMovedZ 3 (contactAt (Zvec 9 0 4) 1)
  ∧ localPointOnBody1 (contactAt (Zvec 11 0 6) 5)
    = Vadd (localPointOnBody1 (contactAt (Zvec 1 0 1) 5)) (Zvec 10 0 5)
  ∧ localPointOnBody1 (contactAt (Zvec 11 0 4) 1)
    = Vadd (localPointOnBody1 (contactAt (Zvec 1 0 (-1)) 1)) (Zvec 10 0 5)
  ∧ localPointOnBody1 (contactAt (Zvec 9 0 6) 1)
    = Vadd (localPointOnBody1 (contactAt (Zvec (-1) 0 1) 1)) (Zvec 10 0 5)
  ∧ localPointOnBody1 (contactAt (Zvec 9 0 4) 1)
    = Vadd (localPointOnBody1 (contactAt (Zvec (-1) 0 (-1)) 1)) (Zvec 10 0 5)
  ∧ ∃ k, getIndexToRemove 0 (Zvec 0 0 0) squareZ = Some (k, squareZ)
      ∧ getIndexToRemove 0 (Vadd (Zvec 0 0 0) (Zvec 10 0 5)) squareMovedZ
        = Some (k, squareMovedZ).
Proof.
  assert (H0 : cachedAt squareZ 0 (contactAt (Zvec 1 0 1) 5)).
  { apply (cachedAt_intro squareZ 0 1); [simpl; lia|..]; vm_compute; reflexivity. }
  assert (H1 : cachedAt squareZ 1 (contactAt (Zvec 1 0 (-1)) 1)).
  { apply (cachedAt_intro squareZ 1 2); [simpl; lia|..]; vm_compute; reflexivity. }
  assert (H2 : cachedAt squareZ 2 (contactAt (Zvec (-1) 0 1) 1)).
  { apply (cachedAt_intro squareZ 2 3); [simpl; lia|..]; vm_compute; reflexivity. }
  assert (H3 : cachedAt squareZ 3 (contactAt (Zvec (-1) 0 (-1)) 1)).
  { apply (cachedAt_intro squareZ 3 4); [simpl; lia|..]; vm_compute; reflexivity. }
  assert (H0' : cachedAt squareMovedZ 0 (contactAt (Zvec 11 0 6) 5)).
  { apply (cachedAt_intro squareMovedZ 0 1); [simpl; lia|..]; vm_compute; reflexivity. }
  assert (H1' : cachedAt squareMovedZ 1 (contactAt (Zvec 11 0 4) 1)).
  { apply (cachedAt_intro squareMovedZ 1 2); [simpl; lia|..]; vm_compute; reflexivity. }
  assert (H2' : cachedAt squareMovedZ 2 (contactAt (Zvec 9 0 6) 1)).
  { apply (cachedAt_intro squareMovedZ 2 3); [simpl; lia|..]; vm_compute; reflexivity. }
  assert (H3' : cachedAt squareMovedZ 3 (contactAt (Zvec 9 0 4) 1)).
  { apply (cachedAt_intro squareMovedZ 3 4); [simpl; lia|..]; vm_compute; reflexivity. }
  split; [exact Z_ExactScalar|]. split; [reflexivity|]. split; [reflexivity|].
  split; [exact H0|]. split; [exact H1|]. split; [exact H2|]. split; [exact H3|].
  split; [exact H0'|]. split; [exact H1'|]. split; [exact H2'|]. split; [exact H3'|].
  split; [reflexivity|]. split; [reflexivity|]. split; [reflexivity|].
  split; [reflexivity|].
  exact (@getIndexToRemove_translation Z_Scalar Z_ExactScalar
           squareZ squareMovedZ 0 (Zvec 0 0 0) (Zvec 10 0 5) _ _ _ _ _ _ _ _
           eq_refl eq_refl H0 H1 H2 H3 H0' H1' H2' H3' eq_refl eq_refl eq_refl eq_refl).
Defined.
